(** * fetch-with-retries: the resilient request wrapper of the Beatcheck probes

    A shallow embedding of [fetch-with-retries.js] (the module that exports
    [fetchWithRetry]) and the properties of its retry loop.

    Modelling conventions.
    - JavaScript numbers that the module handles are integer valued
      (attempt counters, milliseconds, seconds, HTTP statuses); they are
      modelled as [Z], exact below 2^53.  The one fractional computation,
      [ms * factor * Math.random()] inside [jitter], is carried out in [Q],
      i.e. with exact rational arithmetic in place of IEEE doubles.
    - Everything the module cannot decide by itself is read from a [World]:
      what the k-th call of [fetch] resolves to or throws, the value of
      [Math.random()], [Date.now()] and [Date.parse].  The per-attempt
      timer only influences what [fetch] does (an [AbortError] is thrown),
      so it is part of the world as well.
    - Console output does not influence control flow and is left out, except
      that the body snippet read for the log is kept in the trace, because
      reading it changes the response object.
    - Observable effects are collected in a trace of [Event]s. *)

From Stdlib Require Import ZArith QArith Qround Lqa Lia Bool List String Ascii.
From Stdlib Require Import DecimalNat DecimalString.
Import ListNotations.

Local Open Scope string_scope.
Local Open Scope list_scope.
Local Open Scope Z_scope.

(** ** Values thrown by [fetch] *)

(** An error object, as far as the module looks at it: [err.name],
    [err.code] and [err.message]; a field that is [undefined] is [None]. *)
Record JsError := mkError {
  err_name : option string;
  err_code : option string;
  err_message : string
}.

(** What a [catch (err)] clause can receive: any value.  [ThrownFalsy] stands
    for the values for which [!err] holds ([null], [undefined], ...). *)
Inductive Thrown :=
| ThrownFalsy
| ThrownError (e : JsError).

(** ** Responses *)

(** The module calls the global [fetch].  The body of its responses is
    [null] (the reply to a HEAD request, a status such as 204 or 304), or a
    stream that can be read once: [bodyUsed] is set by the first read;
    [payload] is what that read yields, the text ([inl]) or the message of
    the error the stream fails with ([inr]). *)
Record Body := mkBody {
  bodyUsed : bool;
  payload : string + string
}.

Record Response := mkResponse {
  ok : bool;
  status : Z;
  statusText : string;
  headers : list (string * string);
  body : option Body            (* None is null *)
}.

(** [res.headers.get(name)]: the value stored under [name], [null] ([None])
    when there is none.  Header names are kept in lower case. *)
Fixpoint headers_get (hs : list (string * string)) (name : string) : option string :=
  match hs with
  | [] => None
  | (k, v) :: rest => if String.eqb k name then Some v else headers_get rest name
  end.

(** The message of the [TypeError] that a second read of a body fails
    with. *)
Definition body_used_message : string :=
  "Body is unusable: Body has already been read".

(** [res.text()]: a [null] body gives the empty text, any number of times; a
    body that was read before rejects; otherwise the body is marked as used
    and the stream's payload comes back. *)
Definition text (res : Response) : (string + string) * Response :=
  match body res with
  | None => (inl "", res)
  | Some b =>
      if bodyUsed b then (inr body_used_message, res)
      else (payload b,
            mkResponse (ok res) (status res) (statusText res) (headers res)
                       (Some (mkBody true (payload b))))
  end.

(** [text.slice(0, max)] for [0 <= max]. *)
Definition slice0 (s : string) (max : nat) : string := String.substring 0 max s.

(** [readResponseSnippet(res, max)]; the response is returned as the read
    leaves it. *)
Definition readResponseSnippet (res : Response) (max : nat) : string * Response :=
  match text res with
  | (inl t, res') => (slice0 t max, res')
  | (inr msg, res') => (("<failed to read response body: " ++ msg ++ ">")%string, res')
  end.

(** ** Error classification *)

Definition transientCodes : list string :=
  ["ECONNRESET"; "ETIMEDOUT"; "EAI_AGAIN"; "ENOTFOUND"; "EPIPE"; "ECONNREFUSED"].

(** [transientCodes.has(code)] *)
Definition has (codes : list string) (code : string) : bool :=
  existsb (String.eqb code) codes.

(** A string is truthy when it is not empty. *)
Definition truthy (s : string) : bool := negb (String.eqb s "").

Definition name_is (e : JsError) (n : string) : bool :=
  match err_name e with
  | Some m => String.eqb m n
  | None => false
  end.

Definition isTransientError (err : Thrown) : bool :=
  match err with
  | ThrownFalsy => false
  | ThrownError e =>
      if match err_code e with
         | Some c => truthy c && has transientCodes c
         | None => false
         end
      then true
      else if name_is e "FetchError" || name_is e "AbortError" then true
      else false
  end.

(** ** Backoff with jitter *)

Definition factor : Q := 3 # 10.

(** [jitter(ms)], with [rnd] the value [Math.random()] returns. *)
Definition jitter (ms : Z) (rnd : Q) : Z :=
  let delta := Qfloor (inject_Z ms * factor * rnd) in
  ms - delta / 2 + delta.

(** ** [parseInt(s, 10)] *)

Definition isWhiteSpace (c : ascii) : bool :=
  let n := nat_of_ascii c in
  (Nat.eqb n 32 || (Nat.leb 9 n && Nat.leb n 13))%bool.

Definition digitValue (c : ascii) : option Z :=
  let n := nat_of_ascii c in
  if (Nat.leb 48 n && Nat.leb n 57)%bool then Some (Z.of_nat n - 48) else None.

Fixpoint skipWhiteSpace (s : string) : string :=
  match s with
  | String c rest => if isWhiteSpace c then skipWhiteSpace rest else s
  | EmptyString => s
  end.

(** The longest prefix of decimal digits, read as a number; [None] when the
    prefix is empty. *)
Fixpoint digits (s : string) (acc : option Z) : option Z :=
  match s with
  | String c rest =>
      match digitValue c with
      | Some d => digits rest (Some (10 * match acc with Some a => a | None => 0 end + d))
      | None => acc
      end
  | EmptyString => acc
  end.

(** [None] is [NaN]. *)
Definition parseInt (s : string) : option Z :=
  match skipWhiteSpace s with
  | String "-" rest => option_map Z.opp (digits rest None)
  | String "+" rest => digits rest None
  | t => digits t None
  end.

(** ** Configuration *)

(** The module constants, read from the environment once when the module is
    loaded ([FETCH_TIMEOUT_MS], [FETCH_RETRIES], [FETCH_BACKOFF_BASE_MS],
    [FETCH_MAX_RETRY_AFTER_SECS]). *)
Record Defaults := mkDefaults {
  DEFAULT_TIMEOUT_MS : Z;
  DEFAULT_RETRIES : Z;
  DEFAULT_BACKOFF_BASE : Z;
  MAX_RETRY_AFTER_SECS : Z
}.

(** The values the source falls back to when the environment is silent. *)
Definition stockDefaults : Defaults := mkDefaults 15000 3 500 120.

(** The three options [fetchWithRetry] takes out of [opts].  [opt_retries]
    and [opt_backoffBase] are [Some n] exactly when [Number.isInteger] holds
    of the option, [opt_timeoutMs] when it is a number. *)
Record Opts := mkOpts {
  opt_timeoutMs : option Z;
  opt_retries : option Z;
  opt_backoffBase : option Z
}.

Definition noOpts : Opts := mkOpts None None None.

Definition orDefault (o : option Z) (d : Z) : Z :=
  match o with Some v => v | None => d end.

(** The constants of one call, after the first three lines of
    [fetchWithRetry]. *)
Record Config := mkConfig {
  timeoutMs : Z;
  retries : Z;
  backoffBase : Z;
  maxRetryAfterSecs : Z
}.

Definition configure (d : Defaults) (opts : Opts) : Config :=
  mkConfig (orDefault (opt_timeoutMs opts) (DEFAULT_TIMEOUT_MS d))
           (orDefault (opt_retries opts) (DEFAULT_RETRIES d))
           (orDefault (opt_backoffBase opts) (DEFAULT_BACKOFF_BASE d))
           (MAX_RETRY_AFTER_SECS d).

(** ** The world of one call *)

Inductive FetchResult :=
| Resolved (res : Response)
| Rejected (err : Thrown).

Record World := mkWorld {
  (** what [await fetch(url, fetchOptions)] does in attempt [k] *)
  fetch : string -> Z -> FetchResult;
  (** [Math.random()] in attempt [k] *)
  random : Z -> Q;
  (** [Date.now()] in attempt [k] *)
  dateNow : Z -> Z;
  (** [Date.parse(s)], [None] for [NaN] *)
  dateParse : string -> option Z
}.

(** [Math.random()] returns a number in [[0, 1)]. *)
Definition random_ok (w : World) : Prop :=
  forall k, (0 <= random w k)%Q /\ (random w k < 1)%Q.

(** ** The wait before the next attempt *)

(** Lines 238-251: the wait the [Retry-After] header asks for, [0] when the
    header is missing, empty or unreadable.  [ra] is what
    [res.headers.get("retry-after")] returned. *)
Definition headerWaitMs (c : Config) (w : World) (attempt : Z) (ra : option string) : Z :=
  match ra with
  | Some s =>
      if truthy s then
        match parseInt s with
        | Some raInt => Z.min raInt (maxRetryAfterSecs c) * 1000
        | None =>
            match dateParse w s with
            | Some retryDate =>
                let secs := (retryDate - dateNow w attempt) / 1000 in
                Z.max 0 (Z.min secs (maxRetryAfterSecs c)) * 1000
            | None => 0
            end
        end
      else 0
  | None => 0
  end.

(** [jitter(backoffBase * Math.pow(2, attempt - 1))] *)
Definition backoffWaitMs (c : Config) (w : World) (attempt : Z) : Z :=
  jitter (backoffBase c * 2 ^ (attempt - 1)) (random w attempt).

(** Lines 237-255. *)
Definition retryWaitMs (c : Config) (w : World) (attempt : Z) (res : Response) : Z :=
  let waitMs := headerWaitMs c w attempt (headers_get (headers res) "retry-after") in
  if waitMs <=? 0 then backoffWaitMs c w attempt else waitMs.

Definition isRetryableStatus (status : Z) : bool :=
  (status =? 429) || ((500 <=? status) && (status <? 600)).

(** ** The loop *)

Inductive Event :=
| EvFetch (attempt : Z)                      (* fetch(url, fetchOptions) *)
| EvSnippet (attempt : Z) (snippet : string) (* the body snippet that is logged *)
| EvSleep (attempt : Z) (waitMs : Z).        (* sleep(waitMs) *)

(** How one run of the loop body ends. *)
Inductive Completion :=
| Continue (waitMs : Z)       (* await sleep(waitMs); continue *)
| Return (res : Response)     (* return res *)
| Throw (err : Thrown).       (* throw err *)

Record LoopState := mkState {
  attempt : Z;
  lastErr : option Thrown     (* None is null *)
}.

(** The body of the [while] loop, entered in state [st]. *)
Definition iteration (c : Config) (w : World) (url : string) (st : LoopState)
  : Completion * LoopState * list Event :=
  let attempt := attempt st + 1 in
  match fetch w url attempt with
  | Resolved res =>
      let st' := mkState attempt (lastErr st) in
      if ok res then (Return res, st', [EvFetch attempt])
      else
        let status := status res in
        let '(bodySnippet, res) := readResponseSnippet res 1500 in
        if isRetryableStatus status && (attempt <=? retries c) then
          let waitMs := retryWaitMs c w attempt res in
          (Continue waitMs, st',
           [EvFetch attempt; EvSnippet attempt bodySnippet; EvSleep attempt waitMs])
        else
          (Return res, st', [EvFetch attempt; EvSnippet attempt bodySnippet])
  | Rejected err =>
      let st' := mkState attempt (Some err) in
      if isTransientError err && (attempt <=? retries c) then
        let waitMs := backoffWaitMs c w attempt in
        (Continue waitMs, st', [EvFetch attempt; EvSleep attempt waitMs])
      else
        (Throw err, st', [EvFetch attempt])
  end.

(** What the caller of [fetchWithRetry] gets. *)
Inductive Outcome :=
| Returned (res : Response)
| Raised (err : Thrown).

Definition failedToFetch (url : string) : Thrown :=
  ThrownError (mkError (Some "Error") None
                       ("fetch-with-retries: failed to fetch " ++ url)%string).

(** [lastErr || new Error(...)] *)
Definition finalError (url : string) (lastErr : option Thrown) : Thrown :=
  match lastErr with
  | Some (ThrownError e) => ThrownError e
  | Some ThrownFalsy | None => failedToFetch url
  end.

(** The [while (attempt <= retries)] loop and the two lines after it.  The
    result is the outcome and the trace; [None] means that [fuel] iterations
    were not enough. *)
Fixpoint loop (fuel : nat) (c : Config) (w : World) (url : string) (st : LoopState)
  : option (Outcome * list Event) :=
  if attempt st <=? retries c then
    match fuel with
    | O => None
    | S fuel' =>
        match iteration c w url st with
        | (Continue _, st', evs) =>
            match loop fuel' c w url st' with
            | Some (o, rest) => Some (o, evs ++ rest)
            | None => None
            end
        | (Return res, _, evs) => Some (Returned res, evs)
        | (Throw err, _, evs) => Some (Raised err, evs)
        end
    end
  else Some (Raised (finalError url (lastErr st)), []).

Definition initialState : LoopState := mkState 0 None.

Definition fetchWithRetry (d : Defaults) (w : World) (url : string) (opts : Opts)
  : option (Outcome * list Event) :=
  let c := configure d opts in
  loop (Z.to_nat (retries c + 1)) c w url initialState.

(** ** Reading a trace *)

Definition isFetch (ev : Event) : bool :=
  match ev with EvFetch _ => true | _ => false end.

(** The number of calls of [fetch]. *)
Definition attemptsMade (tr : list Event) : Z :=
  Z.of_nat (List.length (filter isFetch tr)).

(** The waits, in the order they were slept. *)
Fixpoint sleeps (tr : list Event) : list Z :=
  match tr with
  | [] => []
  | EvSleep _ ms :: rest => ms :: sleeps rest
  | _ :: rest => sleeps rest
  end.

(** The attempt number an event belongs to. *)
Definition eventAttempt (ev : Event) : Z :=
  match ev with
  | EvFetch k | EvSnippet k _ | EvSleep k _ => k
  end.

(** How attempt number [k] ends, and what it does.  The loop body looks at
    the state only for the attempt counter. *)
Definition attemptCompletion (c : Config) (w : World) (url : string) (k : Z) : Completion :=
  fst (fst (iteration c w url (mkState (k - 1) None))).

Definition attemptEvents (c : Config) (w : World) (url : string) (k : Z) : list Event :=
  snd (iteration c w url (mkState (k - 1) None)).

(** The response object after the diagnostic read of its body. *)
Definition afterSnippet (res : Response) : Response :=
  snd (readResponseSnippet res 1500).

(** ** Runs of the loop as a relation *)

Inductive Run (c : Config) (w : World) (url : string)
  : LoopState -> Outcome -> list Event -> Prop :=
| Run_exit st :
    retries c < attempt st ->
    Run c w url st (Raised (finalError url (lastErr st))) []
| Run_return st res st' evs :
    attempt st <= retries c ->
    iteration c w url st = (Return res, st', evs) ->
    Run c w url st (Returned res) evs
| Run_throw st err st' evs :
    attempt st <= retries c ->
    iteration c w url st = (Throw err, st', evs) ->
    Run c w url st (Raised err) evs
| Run_continue st waitMs st' evs o rest :
    attempt st <= retries c ->
    iteration c w url st = (Continue waitMs, st', evs) ->
    Run c w url st' o rest ->
    Run c w url st o (evs ++ rest).

(** The five ways through the loop body, by what [fetch] did and whether
    another attempt is allowed. *)
Inductive IterationCase (c : Config) (w : World) (url : string) (st : LoopState) : Prop :=
| Case_ok res :
    fetch w url (attempt st + 1) = Resolved res -> ok res = true ->
    IterationCase c w url st
| Case_retry_status res :
    fetch w url (attempt st + 1) = Resolved res -> ok res = false ->
    isRetryableStatus (status res) = true -> attempt st + 1 <= retries c ->
    IterationCase c w url st
| Case_final_status res :
    fetch w url (attempt st + 1) = Resolved res -> ok res = false ->
    isRetryableStatus (status res) = false \/ retries c < attempt st + 1 ->
    IterationCase c w url st
| Case_retry_error err :
    fetch w url (attempt st + 1) = Rejected err ->
    isTransientError err = true -> attempt st + 1 <= retries c ->
    IterationCase c w url st
| Case_final_error err :
    fetch w url (attempt st + 1) = Rejected err ->
    isTransientError err = false \/ retries c < attempt st + 1 ->
    IterationCase c w url st.

(** ** Sample worlds *)

(** A fresh response with the given status and headers; [ok] as [fetch]
    computes it. *)
Definition response (st : Z) (hs : list (string * string)) : Response :=
  mkResponse ((200 <=? st) && (st <? 300)) st "" hs (Some (mkBody false (inl "payload"))).

(** The reply to a conditional request: 304, without a body. *)
Definition notModified : Response :=
  mkResponse false 304 "Not Modified" [] None.

(** The server answers every request with the same response. *)
Definition answering (res : Response) : World :=
  mkWorld (fun _ _ => Resolved res) (fun _ => 0%Q) (fun _ => 0) (fun _ => None).

(** The server answers every request with the same status and headers;
    [Math.random()] always returns [rnd]. *)
Definition always (st : Z) (hs : list (string * string)) (rnd : Q) : World :=
  mkWorld (fun _ _ => Resolved (response st hs)) (fun _ => rnd) (fun _ => 0) (fun _ => None).

(** Every request fails with the same error. *)
Definition failing (err : Thrown) : World :=
  mkWorld (fun _ _ => Rejected err) (fun _ => 0%Q) (fun _ => 0) (fun _ => None).

(** The server answers 503 and asks to wait [secs] seconds. *)
Definition hinted (secs : string) : World :=
  always 503 [("retry-after", secs)] 0.

(** The first [n] requests are answered with status [st], the later ones
    with 200. *)
Definition recovering (n : Z) (st : Z) : World :=
  mkWorld (fun _ k => Resolved (response (if k <=? n then st else 200) []))
          (fun _ => 0%Q) (fun _ => 0) (fun _ => None).

(** The first request fails with [err], the later ones are answered with
    200. *)
Definition failingOnce (err : Thrown) : World :=
  mkWorld (fun _ k => if k <=? 1 then Rejected err else Resolved (response 200 []))
          (fun _ => 0%Q) (fun _ => 0) (fun _ => None).

Definition connectionReset : Thrown :=
  ThrownError (mkError (Some "FetchError") (Some "ECONNRESET") "socket hang up").

Definition aborted : Thrown :=
  ThrownError (mkError (Some "AbortError") None "The user aborted a request.").

Definition certError : Thrown :=
  ThrownError (mkError (Some "Error") (Some "CERT_HAS_EXPIRED") "certificate has expired").

(** ** More views of a trace *)

(** The attempt numbers of the calls of [fetch], in the order of the calls. *)
Definition fetchAttempts (tr : list Event) : list Z :=
  map eventAttempt (filter isFetch tr).

(** The numbers [1; 2; ...; n]. *)
Definition oneTo (n : nat) : list Z := map Z.of_nat (seq 1 n).

(** The wait that follows attempt [k], [0] when none does. *)
Definition waitAfter (c : Config) (w : World) (url : string) (k : Z) : Z :=
  match attemptCompletion c w url k with
  | Continue waitMs => waitMs
  | _ => 0
  end.

(** ** The options object *)

(** The signal of an [AbortController]: the one the caller put into [opts],
    or the one [fetchWithRetry] creates in attempt [k]. *)
Inductive Signal :=
| CallerSignal (id : nat)
| AttemptSignal (attempt : Z).

(** The values an option can have, as far as the module tells them apart. *)
Inductive Value :=
| VUndefined
| VNull
| VNumber (n : Z)
| VString (s : string)
| VSignal (sg : Signal)
| VObject (id : nat).

(** An object is the list of its own properties, in insertion order, each
    key once. *)
Definition JsObject := list (string * Value).

(** [obj[key]] *)
Fixpoint getProp (obj : JsObject) (key : string) : Value :=
  match obj with
  | [] => VUndefined
  | (k, v) :: rest => if String.eqb k key then v else getProp rest key
  end.

(** [obj[key] = v] *)
Fixpoint setProp (obj : JsObject) (key : string) (v : Value) : JsObject :=
  match obj with
  | [] => [(key, v)]
  | (k, v') :: rest =>
      if String.eqb k key then (k, v) :: rest else (k, v') :: setProp rest key v
  end.

(** [delete obj[key]] *)
Fixpoint deleteProp (obj : JsObject) (key : string) : JsObject :=
  match obj with
  | [] => []
  | (k, v) :: rest =>
      if String.eqb k key then deleteProp rest key else (k, v) :: deleteProp rest key
  end.

(** [!!v] *)
Definition valueTruthy (v : Value) : bool :=
  match v with
  | VUndefined | VNull => false
  | VNumber n => negb (n =? 0)
  | VString s => truthy s
  | VSignal _ | VObject _ => true
  end.

(** Lines 203-206: [fetchOptions], the copy of [opts] without the three
    options that are for [fetchWithRetry] itself. *)
Definition fetchOptionsOf (opts : JsObject) : JsObject :=
  deleteProp (deleteProp (deleteProp opts "timeoutMs") "retries") "backoffBase".

(** Line 217: [if (!fetchOptions.signal) fetchOptions.signal = signal], in
    attempt [k]. *)
Definition armSignal (fetchOptions : JsObject) (k : Z) : JsObject :=
  if valueTruthy (getProp fetchOptions "signal") then fetchOptions
  else setProp fetchOptions "signal" (VSignal (AttemptSignal k)).

Definition isAttemptSignal (v : Value) (k : Z) : bool :=
  match v with
  | VSignal (AttemptSignal j) => j =? k
  | _ => false
  end.

(** Line 285, in the [finally] of attempt [k]:
    [if (fetchOptions.signal === signal) delete fetchOptions.signal]. *)
Definition releaseSignal (fetchOptions : JsObject) (k : Z) : JsObject :=
  if isAttemptSignal (getProp fetchOptions "signal") k then deleteProp fetchOptions "signal"
  else fetchOptions.

(** [fetchOptions] as attempt [1 + n] finds it, after [n] attempts. *)
Fixpoint fetchOptionsAfter (opts : JsObject) (n : nat) : JsObject :=
  match n with
  | O => fetchOptionsOf opts
  | S m =>
      releaseSignal (armSignal (fetchOptionsAfter opts m) (Z.of_nat (S m))) (Z.of_nat (S m))
  end.

(** The second argument of [fetch(url, fetchOptions)] in attempt [S m]. *)
Definition fetchOptionsIn (opts : JsObject) (m : nat) : JsObject :=
  armSignal (fetchOptionsAfter opts m) (Z.of_nat (S m)).

(** ** The probes *)

(** [safeText(res)] of the metrics probe: the body, or a placeholder when
    the body cannot be read. *)
Definition safeText (res : Response) : string * Response :=
  match text res with
  | (inl t, res') => (t, res')
  | (inr _, res') => ("<failed-to-read-body>", res')
  end.

(** [\d] *)
Definition isDigit (c : ascii) : bool :=
  match digitValue c with Some _ => true | None => false end.

(** The rest of [s] after its longest prefix of digits. *)
Fixpoint skipDigits (s : string) : string :=
  match s with
  | String c rest => if isDigit c then skipDigits rest else s
  | EmptyString => s
  end.

(** [(\.\d+)?\/] at the head of [s]: what follows the match.  The digits are
    matched greedily, and a shorter run of digits is never followed by a
    slash, so that backtracking finds nothing more. *)
Definition versionTail (s : string) : option string :=
  match s with
  | String a rest =>
      if Ascii.eqb a "/" then Some rest
      else if Ascii.eqb a "." then
        match rest with
        | String d rest' =>
            if isDigit d then
              match skipDigits rest' with
              | String e rest'' => if Ascii.eqb e "/" then Some rest'' else None
              | EmptyString => None
              end
            else None
        | EmptyString => None
        end
      else None
  | EmptyString => None
  end.

(** [/\/v1(\.\d+)?\//] at the head of [s]: what follows the match. *)
Definition matchVersion (s : string) : option string :=
  match s with
  | String a (String b (String c t)) =>
      if Ascii.eqb a "/" && Ascii.eqb b "v" && Ascii.eqb c "1" then versionTail t
      else None
  | _ => None
  end.

(** The regular expression has no match in [s]. *)
Fixpoint versionFree (s : string) : bool :=
  match matchVersion s with
  | Some _ => false
  | None =>
      match s with
      | String _ t => versionFree t
      | EmptyString => true
      end
  end.

(** [s.replace(/\/v1(\.\d+)?\//, repl)] for a replacement without [$]: the
    leftmost match is replaced, a string without a match is left alone. *)
Fixpoint replaceVersion (s : string) (repl : string) : string :=
  match matchVersion s with
  | Some rest => (repl ++ rest)%string
  | None =>
      match s with
      | String c t => String c (replaceVersion t repl)
      | EmptyString => EmptyString
      end
  end.

(** A counter printed in a template literal. *)
Definition numberToString (n : nat) : string :=
  DecimalString.NilEmpty.string_of_uint (Nat.to_uint n).

Definition versionSegment (n : nat) : string :=
  ("/v1." ++ numberToString n ++ "/")%string.

(** [paginateUrl(url)], with the module variable [paginateSeq] passed in and
    out. *)
Definition paginateUrl (url : string) (paginateSeq : nat) : string * nat :=
  (replaceVersion url (versionSegment paginateSeq), S paginateSeq).

(** ** [uptime.js] *)

Module Uptime.

Definition BASE_URL : string := "https://zookeeper.stanford.edu:9443/".

(** From [list] to the URL of an events request:
    [`${BASE_URL}${paginateUrl(list)}/events`]. *)
Definition eventsUrl (list : string) (paginateSeq : nat) : string * nat :=
  let '(u, paginateSeq') := paginateUrl list paginateSeq in
  ((BASE_URL ++ u ++ "/events")%string, paginateSeq').

(** [list] when the playlist was found by its name:
    [`${BASE_URL}api/v1/playlist/${pid}`]. *)
Definition foundList (pid : string) : string :=
  (BASE_URL ++ "api/v1/playlist/" ++ pid)%string.

End Uptime.

(** Every character of [s] is a decimal digit. *)
Fixpoint allDigits (s : string) : bool :=
  match s with
  | String c rest => isDigit c && allDigits rest
  | EmptyString => true
  end.

(** ** The probe of [monitor.js] *)

Module Monitor.

Definition BASE_URL : string := "https://zookeeper.stanford.edu/".
Definition TEST_COMMENT : string := "TEST COMMENT".
Definition TEST_TRACK : string := "TEST TRACK".

Inductive Method := GET | POST | PATCH | DELETE.

(** The JSON documents the probe sends; those of the show, the comment and
    the spin are constants of the script.  The headers of the requests and
    the timings that the log prints are left out. *)
Inductive Document :=
| NoDocument
| ShowDocument
| CommentDocument
| SpinDocument
| MoveDocument (id moveTo : Value).

Record Request := mkRequest {
  method : Method;
  url : string;
  document : Document
}.

(** What [await res.json()] does with the text of a body, as far as the probe
    looks at the result: it throws, or it gives a document whose
    [?.data?.id] is [id]. *)
Inductive JsonResult :=
| JsonThrows
| JsonDataId (id : Value).

Record Server := mkServer {
  (** what the [n]-th [fetch] of the script does *)
  respond : nat -> Request -> FetchResult;
  parseJson : string -> JsonResult
}.

(** How the script ends: it ran to its last line, it returned after a step
    that failed, or an exception left the [async] function. *)
Inductive Ending := Finished | Stopped | Crashed.

(** [s.indexOf(pattern)] *)
Definition indexOf (s pattern : string) : Z :=
  match String.index 0 pattern s with
  | Some i => Z.of_nat i
  | None => -1
  end.

Fixpoint hasSlash (s : string) : bool :=
  match s with
  | EmptyString => false
  | String c t => Ascii.eqb c "/" || hasSlash t
  end.

(** [list.split("/").pop()]: what follows the last slash. *)
Fixpoint lastSegment (s : string) : string :=
  match s with
  | EmptyString => EmptyString
  | String c t =>
      if hasSlash t then lastSegment t
      else if Ascii.eqb c "/" then t
      else String c t
  end.

(** [await res.json()] and [json?.data?.id] *)
Definition dataId (sv : Server) (res : Response) : JsonResult :=
  match fst (text res) with
  | inl t => parseJson sv t
  | inr _ => JsonThrows
  end.

(** The check of step 5 on the page: the comment comes after the track. *)
Definition commentAfterTrack (page : string) : bool :=
  let commentPos := indexOf page TEST_COMMENT in
  let trackPos := indexOf page TEST_TRACK in
  (trackPos <? commentPos) && negb (commentPos =? -1) && negb (trackPos =? -1).

(** Steps 5 and 6, lines 121-147; [lst] is the variable [list] of the
    script. *)
Definition viewAndDelete (sv : Server) (lst pid : string)
  (log : list (string * bool)) (reqs : list Request)
  : list (string * bool) * list Request * Ending :=
  let req5 := mkRequest GET (BASE_URL ++ "?action=&subaction=viewListById&playlist=" ++ pid)%string
                        NoDocument in
  match respond sv 5 req5 with
  | Rejected _ => (log, reqs ++ [req5], Crashed)
  | Resolved res =>
      match fst (text res) with
      | inr _ => (log, reqs ++ [req5], Crashed)
      | inl page =>
          let success5 := commentAfterTrack page in
          let log := log ++ [("View playlist", success5)] in
          let req6 := mkRequest DELETE (BASE_URL ++ lst)%string NoDocument in
          match respond sv 6 req6 with
          | Rejected _ => (log, reqs ++ [req5; req6], Crashed)
          | Resolved res =>
              let success6 := status res =? 204 in
              (log ++ [("Delete playlist", success6)], reqs ++ [req5; req6], Finished)
          end
      end
  end.

(** Steps 2 to 4, lines 45-119. *)
Definition insertAndMove (sv : Server) (lst pid : string)
  (log : list (string * bool)) (reqs : list Request)
  : list (string * bool) * list Request * Ending :=
  let req2 := mkRequest POST (BASE_URL ++ lst ++ "/events")%string CommentDocument in
  match respond sv 2 req2 with
  | Rejected _ => (log, reqs ++ [req2], Crashed)
  | Resolved res =>
      match dataId sv res with
      | JsonThrows => (log, reqs ++ [req2], Crashed)
      | JsonDataId cid =>
          let success2 := (status res =? 200) && valueTruthy cid in
          let log := log ++ [("Insert comment", success2)] in
          if negb success2 then (log, reqs ++ [req2], Stopped)
          else
            let req3 := mkRequest POST (BASE_URL ++ lst ++ "/events")%string SpinDocument in
            match respond sv 3 req3 with
            | Rejected _ => (log, reqs ++ [req2; req3], Crashed)
            | Resolved res =>
                match dataId sv res with
                | JsonThrows => (log, reqs ++ [req2; req3], Crashed)
                | JsonDataId sid =>
                    let success3 := (status res =? 200) && valueTruthy sid in
                    let log := log ++ [("Insert spin", success3)] in
                    if negb success3 then (log, reqs ++ [req2; req3], Stopped)
                    else
                      let req4 := mkRequest PATCH (BASE_URL ++ lst ++ "/events")%string
                                            (MoveDocument sid cid) in
                      match respond sv 4 req4 with
                      | Rejected _ => (log, reqs ++ [req2; req3; req4], Crashed)
                      | Resolved res =>
                          let success4 := status res =? 204 in
                          let log := log ++ [("Move track", success4)] in
                          if negb success4 then (log, reqs ++ [req2; req3; req4], Stopped)
                          else viewAndDelete sv lst pid log (reqs ++ [req2; req3; req4])
                      end
                end
            end
      end
  end.

(** The script: the lines of the log with their verdicts, the requests
    made, and how the script ended. *)
Definition probe (sv : Server) : list (string * bool) * list Request * Ending :=
  let req1 := mkRequest POST (BASE_URL ++ "api/v1/playlist")%string ShowDocument in
  match respond sv 1 req1 with
  | Rejected _ => ([], [req1], Crashed)
  | Resolved res =>
      let success1 := status res =? 201 in
      let log := [("Create playlist", success1)] in
      if negb success1 then (log, [req1], Stopped)
      else
        match headers_get (headers res) "location" with
        | None => (log, [req1], Crashed)
        | Some lst => insertAndMove sv lst (lastSegment lst) log [req1]
        end
  end.

Definition isDelete (r : Request) : bool :=
  match method r with DELETE => true | _ => false end.

(** The labels of the six steps, in the order of the script. *)
Definition labels : list string :=
  ["Create playlist"; "Insert comment"; "Insert spin"; "Move track";
   "View playlist"; "Delete playlist"].

End Monitor.

(** * Properties *)

(** ** The pieces *)

Lemma text_marks_body (res : Response) b :
  body (snd (text res)) = Some b -> bodyUsed b = true.
Proof.
  unfold text. destruct (body res) as [b0|] eqn:B; simpl.
  - destruct (bodyUsed b0) eqn:E; simpl.
    + rewrite B. intros H. inversion H; subst. exact E.
    + intros H. inversion H. reflexivity.
  - rewrite B. discriminate.
Qed.

Lemma text_keeps_null (res : Response) :
  body (snd (text res)) = None <-> body res = None.
Proof.
  unfold text. destruct (body res) as [b0|] eqn:B; simpl.
  - destruct (bodyUsed b0); simpl; [rewrite B|]; split; discriminate.
  - rewrite B. tauto.
Qed.

Lemma text_keeps_head (res : Response) :
  let res' := snd (text res) in
  ok res' = ok res /\ status res' = status res /\
  statusText res' = statusText res /\ headers res' = headers res.
Proof.
  unfold text. destruct (body res) as [b0|]; simpl; auto.
  destruct (bodyUsed b0); simpl; auto.
Qed.

Lemma afterSnippet_text (res : Response) :
  afterSnippet res = snd (text res).
Proof.
  unfold afterSnippet, readResponseSnippet.
  destruct (text res) as [[t | msg] res']; reflexivity.
Qed.

Lemma afterSnippet_bodyUsed (res : Response) b :
  body (afterSnippet res) = Some b -> bodyUsed b = true.
Proof. rewrite afterSnippet_text. apply text_marks_body. Qed.

Lemma afterSnippet_null (res : Response) :
  body (afterSnippet res) = None <-> body res = None.
Proof. rewrite afterSnippet_text. apply text_keeps_null. Qed.

Lemma afterSnippet_head (res : Response) :
  ok (afterSnippet res) = ok res /\ status (afterSnippet res) = status res /\
  statusText (afterSnippet res) = statusText res /\
  headers (afterSnippet res) = headers res.
Proof. rewrite afterSnippet_text. apply text_keeps_head. Qed.

Lemma text_of_used_body (res : Response) b :
  body res = Some b -> bodyUsed b = true -> fst (text res) = inr body_used_message.
Proof. intros B H. unfold text. rewrite B, H. reflexivity. Qed.

Lemma text_of_null_body (res : Response) :
  body res = None -> text res = (inl "", res).
Proof. intros B. unfold text. rewrite B. reflexivity. Qed.

Lemma isRetryableStatus_spec (s : Z) :
  isRetryableStatus s = true <-> s = 429 \/ 500 <= s < 600.
Proof. unfold isRetryableStatus. lia. Qed.

(** ** One iteration *)

Section Iteration.

Variables (c : Config) (w : World) (url : string).

(** The loop body, case by case on what [fetch] did. *)
Lemma iteration_resolved_ok st res :
  fetch w url (attempt st + 1) = Resolved res -> ok res = true ->
  iteration c w url st =
    (Return res, mkState (attempt st + 1) (lastErr st), [EvFetch (attempt st + 1)]).
Proof. intros F O. unfold iteration. rewrite F, O. reflexivity. Qed.

Lemma iteration_resolved_retry st res :
  fetch w url (attempt st + 1) = Resolved res -> ok res = false ->
  isRetryableStatus (status res) = true -> attempt st + 1 <= retries c ->
  iteration c w url st =
    (Continue (retryWaitMs c w (attempt st + 1) (afterSnippet res)),
     mkState (attempt st + 1) (lastErr st),
     [EvFetch (attempt st + 1);
      EvSnippet (attempt st + 1) (fst (readResponseSnippet res 1500));
      EvSleep (attempt st + 1) (retryWaitMs c w (attempt st + 1) (afterSnippet res))]).
Proof.
  intros F O R B. unfold iteration, afterSnippet. rewrite F, O.
  destruct (readResponseSnippet res 1500) as [sn res'].
  rewrite R. replace (attempt st + 1 <=? retries c) with true by lia.
  reflexivity.
Qed.

Lemma iteration_resolved_final st res :
  fetch w url (attempt st + 1) = Resolved res -> ok res = false ->
  isRetryableStatus (status res) = false \/ retries c < attempt st + 1 ->
  iteration c w url st =
    (Return (afterSnippet res), mkState (attempt st + 1) (lastErr st),
     [EvFetch (attempt st + 1);
      EvSnippet (attempt st + 1) (fst (readResponseSnippet res 1500))]).
Proof.
  intros F O H. unfold iteration, afterSnippet. rewrite F, O.
  destruct (readResponseSnippet res 1500) as [sn res'].
  replace (isRetryableStatus (status res) && (attempt st + 1 <=? retries c))
    with false; [reflexivity|].
  destruct H as [H | H]; [rewrite H; reflexivity|].
  replace (attempt st + 1 <=? retries c) with false by lia.
  now rewrite andb_false_r.
Qed.

Lemma iteration_rejected_retry st err :
  fetch w url (attempt st + 1) = Rejected err ->
  isTransientError err = true -> attempt st + 1 <= retries c ->
  iteration c w url st =
    (Continue (backoffWaitMs c w (attempt st + 1)),
     mkState (attempt st + 1) (Some err),
     [EvFetch (attempt st + 1);
      EvSleep (attempt st + 1) (backoffWaitMs c w (attempt st + 1))]).
Proof.
  intros F T B. unfold iteration. rewrite F, T.
  replace (attempt st + 1 <=? retries c) with true by lia.
  reflexivity.
Qed.

Lemma iteration_rejected_final st err :
  fetch w url (attempt st + 1) = Rejected err ->
  isTransientError err = false \/ retries c < attempt st + 1 ->
  iteration c w url st =
    (Throw err, mkState (attempt st + 1) (Some err), [EvFetch (attempt st + 1)]).
Proof.
  intros F H. unfold iteration. rewrite F.
  replace (isTransientError err && (attempt st + 1 <=? retries c))
    with false; [reflexivity|].
  destruct H as [H | H]; [rewrite H; reflexivity|].
  replace (attempt st + 1 <=? retries c) with false by lia.
  now rewrite andb_false_r.
Qed.

(** The five cases are all there is. *)
Lemma iteration_cases st : IterationCase c w url st.
Proof.
  destruct (fetch w url (attempt st + 1)) as [res | err] eqn:F.
  - destruct (ok res) eqn:O; [eapply Case_ok; eauto|].
    destruct (isRetryableStatus (status res)) eqn:R;
      [|eapply Case_final_status; eauto].
    destruct (Z_le_gt_dec (attempt st + 1) (retries c));
      [eapply Case_retry_status | eapply Case_final_status]; eauto; right; lia.
  - destruct (isTransientError err) eqn:T;
      [|eapply Case_final_error; eauto].
    destruct (Z_le_gt_dec (attempt st + 1) (retries c));
      [eapply Case_retry_error | eapply Case_final_error]; eauto; right; lia.
Qed.

End Iteration.

Ltac iteration_case c w url st :=
  let res := fresh "res" in
  let err := fresh "err" in
  let F := fresh "Hfetch" in
  let O := fresh "Hok" in
  let R := fresh "Hretryable" in
  let T := fresh "Htransient" in
  let B := fresh "Hbudget" in
  destruct (iteration_cases c w url st)
    as [res F O | res F O R B | res F O B | err F T B | err F B];
  [ rewrite (iteration_resolved_ok c w url st res F O) in *
  | rewrite (iteration_resolved_retry c w url st res F O R B) in *
  | rewrite (iteration_resolved_final c w url st res F O B) in *
  | rewrite (iteration_rejected_retry c w url st err F T B) in *
  | rewrite (iteration_rejected_final c w url st err F B) in * ].

Section Runs.

Variables (c : Config) (w : World) (url : string).

Lemma iteration_attempt st :
  attempt (snd (fst (iteration c w url st))) = attempt st + 1.
Proof. iteration_case c w url st; reflexivity. Qed.

Lemma iteration_view st :
  fst (fst (iteration c w url st)) = attemptCompletion c w url (attempt st + 1) /\
  snd (iteration c w url st) = attemptEvents c w url (attempt st + 1).
Proof.
  unfold attemptCompletion, attemptEvents, iteration; simpl.
  replace (attempt st + 1 - 1 + 1) with (attempt st + 1) by lia.
  destruct (fetch w url (attempt st + 1)) as [res | err].
  - destruct (ok res); [split; reflexivity|].
    destruct (readResponseSnippet res 1500) as [sn res'].
    destruct (isRetryableStatus (status res) && (attempt st + 1 <=? retries c));
      split; reflexivity.
  - destruct (isTransientError err && (attempt st + 1 <=? retries c));
      split; reflexivity.
Qed.

Lemma attemptsMade_app tr1 tr2 :
  attemptsMade (tr1 ++ tr2) = attemptsMade tr1 + attemptsMade tr2.
Proof.
  unfold attemptsMade. rewrite filter_app, length_app. lia.
Qed.

Lemma attemptsMade_nonneg tr : 0 <= attemptsMade tr.
Proof. unfold attemptsMade. lia. Qed.

Lemma iteration_one_fetch st :
  attemptsMade (snd (iteration c w url st)) = 1.
Proof. iteration_case c w url st; reflexivity. Qed.

Lemma iteration_tags st ev :
  In ev (snd (iteration c w url st)) -> eventAttempt ev = attempt st + 1.
Proof.
  iteration_case c w url st; simpl; intros H;
    repeat (destruct H as [H | H]; [subst ev; reflexivity|]); contradiction.
Qed.

Lemma iteration_continue_budget st waitMs st' evs :
  iteration c w url st = (Continue waitMs, st', evs) ->
  attempt st + 1 <= retries c.
Proof. iteration_case c w url st; intros H; inversion H; lia. Qed.

(** The fuelled loop computes runs, and enough fuel always gives one. *)
Lemma loop_Run fuel : forall st o tr,
  loop fuel c w url st = Some (o, tr) -> Run c w url st o tr.
Proof.
  induction fuel as [|fuel IH]; intros st o tr; simpl;
    destruct (attempt st <=? retries c) eqn:G; intros H;
    try discriminate;
    try (inversion H; subst; apply Run_exit; lia).
  destruct (iteration c w url st) as [[cpl st'] evs] eqn:E.
  destruct cpl as [ms | res | err].
  - destruct (loop fuel c w url st') as [[o' rest]|] eqn:L; [|discriminate].
    inversion H; subst.
    eapply Run_continue; eauto. lia.
  - inversion H; subst. eapply Run_return; eauto. lia.
  - inversion H; subst. eapply Run_throw; eauto. lia.
Qed.

Lemma loop_total fuel : forall st,
  (Z.to_nat (retries c + 1 - attempt st) <= fuel)%nat ->
  exists o tr, loop fuel c w url st = Some (o, tr).
Proof.
  induction fuel as [|fuel IH]; intros st Hf; simpl;
    destruct (attempt st <=? retries c) eqn:G; eauto; try lia.
  destruct (iteration c w url st) as [[cpl st'] evs] eqn:E.
  destruct cpl as [ms | res | err]; eauto.
  destruct (IH st') as (o & rest & L).
  - pose proof (iteration_attempt st) as A. rewrite E in A. simpl in A. lia.
  - rewrite L. eauto.
Qed.

(** Attempts are numbered consecutively from the state's counter and never
    pass [retries + 1]. *)
Lemma Run_attempts st o tr :
  Run c w url st o tr ->
  (retries c < attempt st -> tr = [] /\ o = Raised (finalError url (lastErr st))) /\
  (attempt st <= retries c ->
   1 <= attemptsMade tr /\ attempt st + attemptsMade tr <= retries c + 1).
Proof.
  induction 1 as [st G | st res st' evs G E | st err st' evs G E
                 | st ms st' evs o rest G E R IH].
  - split; [auto | lia].
  - split; [lia|]. intros _.
    pose proof (iteration_one_fetch st) as N. rewrite E in N. simpl in N. lia.
  - split; [lia|]. intros _.
    pose proof (iteration_one_fetch st) as N. rewrite E in N. simpl in N. lia.
  - split; [lia|]. intros _.
    pose proof (iteration_one_fetch st) as N. rewrite E in N. simpl in N.
    pose proof (iteration_attempt st) as A. rewrite E in A. simpl in A.
    pose proof (iteration_continue_budget _ _ _ _ E) as B.
    rewrite attemptsMade_app, N.
    destruct IH as [_ IH]. lia.
Qed.

(** Every event of a run is an event of the attempt it is tagged with. *)
Lemma Run_events st o tr :
  Run c w url st o tr ->
  forall ev, In ev tr <->
    (attempt st < eventAttempt ev <= attempt st + attemptsMade tr /\
     In ev (attemptEvents c w url (eventAttempt ev))).
Proof.
  induction 1 as [st G | st res st' evs G E | st err st' evs G E
                 | st ms st' evs o rest G E R IH]; intros ev.
  - simpl. split; [contradiction|]. unfold attemptsMade; simpl. lia.
  - pose proof (iteration_one_fetch st) as N. rewrite E in N. simpl in N.
    pose proof (iteration_tags st ev) as T. rewrite E in T. simpl in T.
    pose proof (iteration_view st) as [_ V]. rewrite E in V. simpl in V.
    rewrite N. split.
    + intros I. rewrite (T I), <- V. split; [lia | exact I].
    + intros [Rg I]. replace (eventAttempt ev) with (attempt st + 1) in I by lia.
      rewrite V. exact I.
  - pose proof (iteration_one_fetch st) as N. rewrite E in N. simpl in N.
    pose proof (iteration_tags st ev) as T. rewrite E in T. simpl in T.
    pose proof (iteration_view st) as [_ V]. rewrite E in V. simpl in V.
    rewrite N. split.
    + intros I. rewrite (T I), <- V. split; [lia | exact I].
    + intros [Rg I]. replace (eventAttempt ev) with (attempt st + 1) in I by lia.
      rewrite V. exact I.
  - pose proof (iteration_one_fetch st) as N. rewrite E in N. simpl in N.
    pose proof (iteration_tags st ev) as T. rewrite E in T. simpl in T.
    pose proof (iteration_view st) as [_ V]. rewrite E in V. simpl in V.
    pose proof (iteration_attempt st) as A. rewrite E in A. simpl in A.
    pose proof (attemptsMade_nonneg rest) as P.
    rewrite attemptsMade_app, N, in_app_iff, IH, A. split.
    + intros [I | [Rg I]].
      * rewrite (T I), <- V. split; [lia | exact I].
      * split; [lia | exact I].
    + intros [Rg I].
      destruct (Z.eq_dec (eventAttempt ev) (attempt st + 1)) as [Q | Q].
      * left. rewrite Q in I. rewrite V. exact I.
      * right. split; [lia | exact I].
Qed.

(** How the attempts of a run end: all but the last with [continue], the
    last with the outcome of the call. *)
Lemma Run_completions st o tr :
  Run c w url st o tr ->
  attempt st <= retries c ->
  (forall k, attempt st < k < attempt st + attemptsMade tr ->
             exists waitMs, attemptCompletion c w url k = Continue waitMs) /\
  match attemptCompletion c w url (attempt st + attemptsMade tr) with
  | Continue _ => False
  | Return res => o = Returned res
  | Throw err => o = Raised err
  end.
Proof.
  induction 1 as [st G | st res st' evs G E | st err st' evs G E
                 | st ms st' evs o rest G E R IH]; intros Le.
  - lia.
  - pose proof (iteration_one_fetch st) as N. rewrite E in N. simpl in N.
    pose proof (iteration_view st) as [V _]. rewrite E in V. simpl in V.
    rewrite N, <- V. split; [intros; lia | reflexivity].
  - pose proof (iteration_one_fetch st) as N. rewrite E in N. simpl in N.
    pose proof (iteration_view st) as [V _]. rewrite E in V. simpl in V.
    rewrite N, <- V. split; [intros; lia | reflexivity].
  - pose proof (iteration_one_fetch st) as N. rewrite E in N. simpl in N.
    pose proof (iteration_view st) as [V _]. rewrite E in V. simpl in V.
    pose proof (iteration_attempt st) as A. rewrite E in A. simpl in A.
    pose proof (iteration_continue_budget _ _ _ _ E) as B.
    rewrite attemptsMade_app, N.
    destruct IH as [IH1 IH2]; [lia|].
    replace (attempt st + (1 + attemptsMade rest))
      with (attempt st' + attemptsMade rest) by lia.
    split; [|exact IH2].
    intros k Hk.
    destruct (Z.eq_dec k (attempt st + 1)) as [Q | Q].
    + subst k. rewrite <- V. eauto.
    + apply IH1. lia.
Qed.

End Runs.

(** ** Jitter *)

(** The integer [delta] of [jitter], against [0.3 * ms]. *)
Lemma jitter_delta (ms : Z) (rnd : Q) :
  (0 <= rnd)%Q -> (rnd < 1)%Q ->
  (0 <= ms ->
   0 <= Qfloor (inject_Z ms * factor * rnd) /\
   10 * Qfloor (inject_Z ms * factor * rnd) <= 3 * ms) /\
  (ms <= 0 ->
   Qfloor (inject_Z ms * factor * rnd) <= 0 /\
   3 * ms <= 10 * Qfloor (inject_Z ms * factor * rnd) + 10).
Proof.
  intros R0 R1.
  pose proof (Qfloor_le (inject_Z ms * factor * rnd)) as Lo.
  pose proof (Qlt_floor (inject_Z ms * factor * rnd)) as Hi.
  set (delta := Qfloor (inject_Z ms * factor * rnd)) in *.
  unfold factor in *.
  split; intros S.
  - assert (0 <= inject_Z ms)%Q as S' by (rewrite Zle_Qle in S; exact S).
    assert (inject_Z delta <= (3 # 10) * inject_Z ms)%Q as A by nra.
    assert (0 < inject_Z (delta + 1))%Q as B by nra.
    clear Lo Hi. unfold Qle, Qlt, Qmult, inject_Z in A, B.
    cbn [Qnum Qden] in A, B. lia.
  - assert (inject_Z ms <= 0)%Q as S' by (rewrite Zle_Qle in S; exact S).
    assert (inject_Z delta <= 0)%Q as A by nra.
    assert ((3 # 10) * inject_Z ms < inject_Z (delta + 1))%Q as B by nra.
    clear Lo Hi. unfold Qle, Qlt, Qmult, inject_Z in A, B.
    cbn [Qnum Qden] in A, B. lia.
Qed.

(** [jitter ms] stays within 15% of [ms], up to the half millisecond that
    flooring [delta] can add. *)
Lemma jitter_near (ms : Z) (rnd : Q) :
  (0 <= rnd)%Q -> (rnd < 1)%Q ->
  20 * Z.abs (jitter ms rnd - ms) <= 3 * Z.abs ms + 10.
Proof.
  intros R0 R1. unfold jitter.
  pose proof (jitter_delta ms rnd R0 R1) as [P N].
  set (delta := Qfloor (inject_Z ms * factor * rnd)) in *.
  pose proof (Z.div_mod delta 2 ltac:(lia)).
  pose proof (Z.mod_pos_bound delta 2 ltac:(lia)).
  destruct (Z_le_gt_dec 0 ms) as [S | S].
  - destruct (P S). lia.
  - destruct N; lia.
Qed.

(** [jitter] never shortens a non-negative wait. *)
Lemma jitter_above (ms : Z) (rnd : Q) :
  (0 <= rnd)%Q -> (rnd < 1)%Q -> 0 <= ms -> ms <= jitter ms rnd.
Proof.
  intros R0 R1 S. unfold jitter.
  pose proof (jitter_delta ms rnd R0 R1) as [P _].
  set (delta := Qfloor (inject_Z ms * factor * rnd)) in *.
  pose proof (Z.div_mod delta 2 ltac:(lia)).
  pose proof (Z.mod_pos_bound delta 2 ltac:(lia)).
  destruct (P S). lia.
Qed.

(** ** The wait *)

Lemma backoffWaitMs_nonneg c w k :
  random_ok w -> 0 <= backoffBase c -> 0 <= backoffWaitMs c w k.
Proof.
  intros R B. unfold backoffWaitMs. destruct (R k) as [R0 R1].
  assert (0 <= backoffBase c * 2 ^ (k - 1)) as P
    by (apply Z.mul_nonneg_nonneg; [exact B | apply Z.pow_nonneg; lia]).
  pose proof (jitter_above _ _ R0 R1 P). lia.
Qed.

(** A wait taken from the header is capped. *)
Lemma headerWaitMs_capped c w k ra :
  0 < headerWaitMs c w k ra ->
  headerWaitMs c w k ra <= maxRetryAfterSecs c * 1000.
Proof.
  unfold headerWaitMs.
  destruct ra as [s|]; [|lia].
  destruct (truthy s); [|lia].
  destruct (parseInt s) as [raInt|]; [lia|].
  destruct (dateParse w s) as [retryDate|]; lia.
Qed.

Lemma retryWaitMs_header c w k res :
  0 < headerWaitMs c w k (headers_get (headers res) "retry-after") ->
  retryWaitMs c w k res = headerWaitMs c w k (headers_get (headers res) "retry-after").
Proof.
  intros H. unfold retryWaitMs.
  destruct (Z.leb_spec (headerWaitMs c w k (headers_get (headers res) "retry-after")) 0);
    [lia | reflexivity].
Qed.

Lemma retryWaitMs_backoff c w k res :
  headerWaitMs c w k (headers_get (headers res) "retry-after") <= 0 ->
  retryWaitMs c w k res = backoffWaitMs c w k.
Proof.
  intros H. unfold retryWaitMs.
  destruct (Z.leb_spec (headerWaitMs c w k (headers_get (headers res) "retry-after")) 0);
    [reflexivity | lia].
Qed.

Lemma retryWaitMs_nonneg c w k res :
  random_ok w -> 0 <= backoffBase c -> 0 <= retryWaitMs c w k res.
Proof.
  intros R B.
  destruct (Z_le_gt_dec (headerWaitMs c w k (headers_get (headers res) "retry-after")) 0).
  - rewrite retryWaitMs_backoff by assumption. now apply backoffWaitMs_nonneg.
  - rewrite retryWaitMs_header by lia. lia.
Qed.

(** A string that [parseInt] reads as a number is not empty. *)
Lemma parseInt_truthy s n : parseInt s = Some n -> truthy s = true.
Proof. destruct s; [discriminate | reflexivity]. Qed.

Lemma headerWaitMs_integer c w k s n :
  parseInt s = Some n ->
  headerWaitMs c w k (Some s) = Z.min n (maxRetryAfterSecs c) * 1000.
Proof.
  intros P. unfold headerWaitMs. rewrite (parseInt_truthy _ _ P), P. reflexivity.
Qed.

(** ** One attempt, by number *)

Section Attempts.

Variables (c : Config) (w : World) (url : string).

Lemma attempt_ok k res :
  fetch w url k = Resolved res -> ok res = true ->
  attemptCompletion c w url k = Return res /\
  attemptEvents c w url k = [EvFetch k].
Proof.
  intros F O. unfold attemptCompletion, attemptEvents.
  rewrite (iteration_resolved_ok c w url (mkState (k - 1) None) res);
    simpl; replace (k - 1 + 1) with k by lia; auto.
Qed.

Lemma attempt_retry_status k res :
  fetch w url k = Resolved res -> ok res = false ->
  isRetryableStatus (status res) = true -> k <= retries c ->
  attemptCompletion c w url k = Continue (retryWaitMs c w k (afterSnippet res)) /\
  attemptEvents c w url k =
    [EvFetch k; EvSnippet k (fst (readResponseSnippet res 1500));
     EvSleep k (retryWaitMs c w k (afterSnippet res))].
Proof.
  intros F O R B. unfold attemptCompletion, attemptEvents.
  rewrite (iteration_resolved_retry c w url (mkState (k - 1) None) res);
    simpl; replace (k - 1 + 1) with k by lia; auto.
Qed.

Lemma attempt_final_status k res :
  fetch w url k = Resolved res -> ok res = false ->
  isRetryableStatus (status res) = false \/ retries c < k ->
  attemptCompletion c w url k = Return (afterSnippet res) /\
  attemptEvents c w url k =
    [EvFetch k; EvSnippet k (fst (readResponseSnippet res 1500))].
Proof.
  intros F O H. unfold attemptCompletion, attemptEvents.
  rewrite (iteration_resolved_final c w url (mkState (k - 1) None) res);
    simpl; replace (k - 1 + 1) with k by lia; auto.
Qed.

Lemma attempt_retry_error k err :
  fetch w url k = Rejected err ->
  isTransientError err = true -> k <= retries c ->
  attemptCompletion c w url k = Continue (backoffWaitMs c w k) /\
  attemptEvents c w url k = [EvFetch k; EvSleep k (backoffWaitMs c w k)].
Proof.
  intros F T B. unfold attemptCompletion, attemptEvents.
  rewrite (iteration_rejected_retry c w url (mkState (k - 1) None) err);
    simpl; replace (k - 1 + 1) with k by lia; auto.
Qed.

Lemma attempt_final_error k err :
  fetch w url k = Rejected err ->
  isTransientError err = false \/ retries c < k ->
  attemptCompletion c w url k = Throw err /\
  attemptEvents c w url k = [EvFetch k].
Proof.
  intros F H. unfold attemptCompletion, attemptEvents.
  rewrite (iteration_rejected_final c w url (mkState (k - 1) None) err);
    simpl; replace (k - 1 + 1) with k by lia; auto.
Qed.

End Attempts.

(** ** Whole calls *)

Section Calls.

Variables (c : Config) (w : World) (url : string).

Lemma attemptEvents_fetch k : In (EvFetch k) (attemptEvents c w url k).
Proof.
  unfold attemptEvents.
  iteration_case c w url (mkState (k - 1) None); simpl;
    replace (k - 1 + 1) with k by lia; auto.
Qed.

Lemma attempt_sleep k j waitMs :
  In (EvSleep j waitMs) (attemptEvents c w url k) <->
  j = k /\ attemptCompletion c w url k = Continue waitMs.
Proof.
  unfold attemptEvents, attemptCompletion.
  iteration_case c w url (mkState (k - 1) None); simpl;
    replace (k - 1 + 1) with k by lia;
    (split;
     [ intros H; repeat (destruct H as [H | H]; try discriminate);
       try contradiction; inversion H; subst; auto
     | intros [J H]; try discriminate; inversion H; subst; auto 6 ]).
Qed.

(** A call with a budget makes between 1 and [retries + 1] attempts; a call
    without one makes none. *)
Lemma Run_budget o tr :
  Run c w url initialState o tr -> 0 <= retries c ->
  1 <= attemptsMade tr <= retries c + 1.
Proof.
  intros R N. destruct (Run_attempts _ _ _ _ _ _ R) as [_ A].
  change (attempt initialState) with 0 in A. specialize (A N). lia.
Qed.

Lemma Run_nothing o tr :
  Run c w url initialState o tr -> retries c < 0 ->
  tr = [] /\ o = Raised (failedToFetch url).
Proof.
  intros R N. destruct (Run_attempts _ _ _ _ _ _ R) as [A _].
  change (attempt initialState) with 0 in A. exact (A N).
Qed.

(** The attempts made are the numbers [1 .. attemptsMade tr]. *)
Lemma Run_made o tr k :
  Run c w url initialState o tr ->
  In (EvFetch k) tr <-> 1 <= k <= attemptsMade tr.
Proof.
  intros R. rewrite (Run_events _ _ _ _ _ _ R). simpl.
  pose proof (attemptEvents_fetch k). intuition lia.
Qed.

Lemma Run_made_budget o tr k :
  Run c w url initialState o tr -> In (EvFetch k) tr ->
  0 <= retries c /\ 1 <= k <= attemptsMade tr /\ attemptsMade tr <= retries c + 1.
Proof.
  intros R I. pose proof (proj1 (Run_made _ _ _ R) I) as M.
  destruct (Z_lt_le_dec (retries c) 0) as [N | N].
  - destruct (Run_nothing _ _ R N) as [E _]. subst tr. contradiction.
  - pose proof (Run_budget _ _ R N). lia.
Qed.

(** An attempt that does not end with [continue] is the last one, and its
    completion is the outcome of the call. *)
Lemma Run_returns o tr k res :
  Run c w url initialState o tr -> In (EvFetch k) tr ->
  attemptCompletion c w url k = Return res ->
  o = Returned res /\ attemptsMade tr = k.
Proof.
  intros R I E. destruct (Run_made_budget _ _ _ R I) as (N & M & _).
  destruct (Run_completions _ _ _ _ _ _ R N) as [Mid Last]. simpl in Mid, Last.
  destruct (Z.eq_dec k (attemptsMade tr)) as [Q | Q].
  - subst k. rewrite E in Last. auto.
  - destruct (Mid k ltac:(lia)) as [ms C]. congruence.
Qed.

Lemma Run_throws o tr k err :
  Run c w url initialState o tr -> In (EvFetch k) tr ->
  attemptCompletion c w url k = Throw err ->
  o = Raised err /\ attemptsMade tr = k.
Proof.
  intros R I E. destruct (Run_made_budget _ _ _ R I) as (N & M & _).
  destruct (Run_completions _ _ _ _ _ _ R N) as [Mid Last]. simpl in Mid, Last.
  destruct (Z.eq_dec k (attemptsMade tr)) as [Q | Q].
  - subst k. rewrite E in Last. auto.
  - destruct (Mid k ltac:(lia)) as [ms C]. congruence.
Qed.

(** Sleeps are the waits of the attempts that end with [continue]. *)
Lemma Run_sleep o tr k waitMs :
  Run c w url initialState o tr ->
  In (EvSleep k waitMs) tr <->
  In (EvFetch k) tr /\ attemptCompletion c w url k = Continue waitMs.
Proof.
  intros R. rewrite (Run_made _ _ _ R), (Run_events _ _ _ _ _ _ R). simpl.
  rewrite attempt_sleep. intuition lia.
Qed.

End Calls.

Lemma fetchWithRetry_Run d w url opts o tr :
  fetchWithRetry d w url opts = Some (o, tr) ->
  Run (configure d opts) w url initialState o tr.
Proof. unfold fetchWithRetry. apply loop_Run. Qed.

(** [fetchWithRetry] always comes back. *)
Lemma fetchWithRetry_total d w url opts :
  exists o tr, fetchWithRetry d w url opts = Some (o, tr).
Proof.
  unfold fetchWithRetry. apply loop_total. simpl. lia.
Qed.

(** What [fetch] did in an attempt, read off from how the attempt ended. *)
Lemma attempt_inv c w url k :
  match attemptCompletion c w url k with
  | Return res =>
      exists res0, fetch w url k = Resolved res0 /\
        ((ok res0 = true /\ res = res0) \/
         (ok res0 = false /\ res = afterSnippet res0 /\
          (isRetryableStatus (status res0) = false \/ retries c < k)))
  | Throw err =>
      fetch w url k = Rejected err /\
      (isTransientError err = false \/ retries c < k)
  | Continue waitMs =>
      k <= retries c /\
      ((exists res0, fetch w url k = Resolved res0 /\ ok res0 = false /\
                     isRetryableStatus (status res0) = true /\
                     waitMs = retryWaitMs c w k (afterSnippet res0)) \/
       (exists err, fetch w url k = Rejected err /\
                    isTransientError err = true /\
                    waitMs = backoffWaitMs c w k))
  end.
Proof.
  destruct (fetch w url k) as [res | err] eqn:F.
  - destruct (ok res) eqn:O.
    + rewrite (proj1 (attempt_ok c w url k res F O)). eauto.
    + destruct (isRetryableStatus (status res)) eqn:R.
      * destruct (Z_le_gt_dec k (retries c)) as [B | B].
        -- rewrite (proj1 (attempt_retry_status c w url k res F O R B)).
           split; [exact B|]. left. eauto.
        -- assert (retries c < k) as B' by lia.
           rewrite (proj1 (attempt_final_status c w url k res F O (or_intror B'))).
           exists res. split; [reflexivity|]. right. auto.
      * rewrite (proj1 (attempt_final_status c w url k res F O (or_introl R))).
        exists res. split; [reflexivity|]. right. auto.
  - destruct (isTransientError err) eqn:T.
    + destruct (Z_le_gt_dec k (retries c)) as [B | B].
      * rewrite (proj1 (attempt_retry_error c w url k err F T B)).
        split; [exact B|]. right. eauto.
      * assert (retries c < k) as B' by lia.
        rewrite (proj1 (attempt_final_error c w url k err F (or_intror B'))).
        split; [reflexivity|]. right; lia.
    + rewrite (proj1 (attempt_final_error c w url k err F (or_introl T))).
      auto.
Qed.

(** * The retry budget *)

(** Claim C1.  For every url and every configuration whose retry count [N]
    is at least 0, one call of [fetchWithRetry] comes back (it returns or
    raises) after at most [N + 1] calls of [fetch]. *)
Theorem attempts_at_most_retries_plus_one d w url opts :
  0 <= retries (configure d opts) ->
  exists o tr, fetchWithRetry d w url opts = Some (o, tr) /\
               attemptsMade tr <= retries (configure d opts) + 1.
Proof.
  intros N. destruct (fetchWithRetry_total d w url opts) as (o & tr & E).
  exists o, tr. split; [exact E|].
  pose proof (Run_budget _ _ _ _ _ (fetchWithRetry_Run _ _ _ _ _ _ E) N). lia.
Qed.

Lemma attempts_at_most_retries_plus_one_witness :
  0 <= retries (configure stockDefaults noOpts) /\
  exists o tr, fetchWithRetry stockDefaults (always 429 [] 0) "u" noOpts = Some (o, tr) /\
               attemptsMade tr <= retries (configure stockDefaults noOpts) + 1.
Proof.
  assert (0 <= retries (configure stockDefaults noOpts)) as N
    by (vm_compute; discriminate).
  split; [exact N|].
  exact (attempts_at_most_retries_plus_one stockDefaults (always 429 [] 0) "u" noOpts N).
Defined.

(** With a budget of at least 0 the first attempt is always made. *)
Lemma first_attempt_made d w url opts o tr :
  0 <= retries (configure d opts) ->
  fetchWithRetry d w url opts = Some (o, tr) -> In (EvFetch 1) tr.
Proof.
  intros N E. pose proof (fetchWithRetry_Run _ _ _ _ _ _ E) as R.
  apply (Run_made _ _ _ _ _ _ R).
  pose proof (Run_budget _ _ _ _ _ R N). lia.
Qed.

(** Claim C10.  When [opts.retries] is a negative integer, [fetchWithRetry]
    never calls [fetch] (the trace is empty: no attempt, no body read, no
    sleep) and raises the generic [Error] with the message
    "fetch-with-retries: failed to fetch <url>". *)
Theorem negative_retries_raise_without_attempt d w url opts n :
  opt_retries opts = Some n -> n < 0 ->
  fetchWithRetry d w url opts = Some (Raised (failedToFetch url), []) /\
  attemptsMade [] = 0 /\
  failedToFetch url =
    ThrownError (mkError (Some "Error") None
                         ("fetch-with-retries: failed to fetch " ++ url)%string).
Proof.
  intros O N. split; [|split; reflexivity].
  destruct (fetchWithRetry_total d w url opts) as (o & tr & E).
  destruct (Run_nothing _ _ _ _ _ (fetchWithRetry_Run _ _ _ _ _ _ E)) as [T R].
  - unfold configure. rewrite O. simpl. exact N.
  - subst o tr. exact E.
Qed.

Lemma negative_retries_raise_without_attempt_witness :
  fetchWithRetry stockDefaults (always 200 [] 0) "https://zookeeper.stanford.edu/"
                 (mkOpts None (Some (-1)) None)
  = Some (Raised (failedToFetch "https://zookeeper.stanford.edu/"), []).
Proof.
  apply (negative_retries_raise_without_attempt
           stockDefaults (always 200 [] 0) "https://zookeeper.stanford.edu/"
           (mkOpts None (Some (-1)) None) (-1)).
  - reflexivity.
  - reflexivity.
Defined.

(** * Classification of errors *)

Lemma has_transientCodes code :
  has transientCodes code = true <->
  code = "ECONNRESET" \/ code = "ETIMEDOUT" \/ code = "EAI_AGAIN" \/
  code = "ENOTFOUND" \/ code = "EPIPE" \/ code = "ECONNREFUSED".
Proof.
  unfold has, transientCodes. simpl.
  rewrite !orb_true_iff, !String.eqb_eq. intuition discriminate.
Qed.

Lemma name_is_spec e n : name_is e n = true <-> err_name e = Some n.
Proof.
  unfold name_is. destruct (err_name e) as [m|].
  - rewrite String.eqb_eq. split; congruence.
  - split; discriminate.
Qed.

Lemma code_is_transient e :
  match err_code e with
  | Some c => truthy c && has transientCodes c
  | None => false
  end = true <->
  exists code, err_code e = Some code /\
    (code = "ECONNRESET" \/ code = "ETIMEDOUT" \/ code = "EAI_AGAIN" \/
     code = "ENOTFOUND" \/ code = "EPIPE" \/ code = "ECONNREFUSED").
Proof.
  destruct (err_code e) as [c|].
  - rewrite andb_true_iff, has_transientCodes. split.
    + intros [_ H]. eauto.
    + intros (code & E & H). inversion E; subst code. split; [|exact H].
      destruct c; [|reflexivity].
      repeat (destruct H as [H | H]; try discriminate).
  - split; [discriminate | intros (code & E & _); discriminate].
Qed.

Lemma isTransientError_error e :
  isTransientError (ThrownError e) =
  match err_code e with
  | Some c => truthy c && has transientCodes c
  | None => false
  end || (name_is e "FetchError" || name_is e "AbortError").
Proof.
  unfold isTransientError.
  destruct (match err_code e with
            | Some c => truthy c && has transientCodes c
            | None => false
            end); [reflexivity|].
  destruct (name_is e "FetchError" || name_is e "AbortError"); reflexivity.
Qed.

(** Claim C6.  [isTransientError] is a function of the thrown value alone,
    and it answers [true] exactly when the value is an error object whose
    [code] is one of ECONNRESET, ETIMEDOUT, EAI_AGAIN, ENOTFOUND, EPIPE,
    ECONNREFUSED, or whose [name] is "FetchError" or "AbortError"; every
    other thrown value is classified as fatal ([false]). *)
Theorem isTransientError_exactly (err : Thrown) :
  (isTransientError err = true <->
   exists e, err = ThrownError e /\
     ((exists code, err_code e = Some code /\
         (code = "ECONNRESET" \/ code = "ETIMEDOUT" \/ code = "EAI_AGAIN" \/
          code = "ENOTFOUND" \/ code = "EPIPE" \/ code = "ECONNREFUSED")) \/
      err_name e = Some "FetchError" \/ err_name e = Some "AbortError")) /\
  (isTransientError err = true \/ isTransientError err = false).
Proof.
  split; [|destruct (isTransientError err); auto].
  destruct err as [|e].
  - split; [discriminate | intros (e & H & _); discriminate].
  - rewrite isTransientError_error, !orb_true_iff, code_is_transient, !name_is_spec.
    split.
    + intros H. exists e. split; [reflexivity | exact H].
    + intros (e' & E & H). inversion E; subst e'. exact H.
Qed.

(** The classification at work. *)
Example transient_by_code :
  isTransientError (ThrownError (mkError (Some "Error") (Some "EPIPE") "write EPIPE")) = true.
Proof. reflexivity. Qed.

Example transient_by_name : isTransientError aborted = true.
Proof. reflexivity. Qed.

Example fatal_otherwise :
  isTransientError certError = false /\ isTransientError ThrownFalsy = false.
Proof. split; reflexivity. Qed.

(** * What the caller gets *)

(** Claim C7.  When an attempt of a call raises an error that is fatal, or a
    transient one in the last attempt the budget allows, the call raises
    that very error and the attempt is the last one.  In particular a fatal
    error in attempt 1 ends the call at once: [fetch] was called once and
    nothing else happened, no sleep and no attempt 2. *)
Theorem fatal_or_exhausted_error_is_rethrown d w url opts :
  exists o tr, fetchWithRetry d w url opts = Some (o, tr) /\
    (forall k err,
       In (EvFetch k) tr -> fetch w url k = Rejected err ->
       isTransientError err = false \/
       (isTransientError err = true /\ k = retries (configure d opts) + 1) ->
       o = Raised err /\ attemptsMade tr = k) /\
    (forall err,
       0 <= retries (configure d opts) ->
       fetch w url 1 = Rejected err -> isTransientError err = false ->
       o = Raised err /\ tr = [EvFetch 1]).
Proof.
  destruct (fetchWithRetry_total d w url opts) as (o & tr & E).
  pose proof (fetchWithRetry_Run _ _ _ _ _ _ E) as R.
  exists o, tr. split; [exact E|].
  assert (forall k err,
            In (EvFetch k) tr -> fetch w url k = Rejected err ->
            isTransientError err = false \/ retries (configure d opts) < k ->
            o = Raised err /\ attemptsMade tr = k) as Last.
  { intros k err I F H.
    destruct (attempt_final_error (configure d opts) w url k err F H) as [C _].
    exact (Run_throws _ _ _ _ _ _ _ R I C). }
  split.
  - intros k err I F [H | [_ H]]; apply (Last k err I F); [left; exact H | right; lia].
  - intros err N F T.
    pose proof (first_attempt_made _ _ _ _ _ _ N E) as I.
    destruct (Last 1 err I F (or_introl T)) as [O M]. split; [exact O|].
    pose proof (attempt_final_error (configure d opts) w url 1 err F (or_introl T))
      as [_ Ev].
    clear Last. revert I M Ev.
    inversion R as [st G | st res st' evs G It | st err' st' evs G It
                   | st ms st' evs o' rest G It R']; subst; intros I M Ev.
    + contradiction.
    + pose proof (iteration_view (configure d opts) w url initialState) as [_ V].
      rewrite It in V. simpl in V. rewrite V. exact Ev.
    + pose proof (iteration_view (configure d opts) w url initialState) as [_ V].
      rewrite It in V. simpl in V. rewrite V. exact Ev.
    + pose proof (iteration_view (configure d opts) w url initialState) as [C _].
      rewrite It in C. simpl in C.
      rewrite (proj1 (attempt_final_error (configure d opts) w url 1 err F (or_introl T))) in C.
      discriminate.
Qed.

Lemma fatal_or_exhausted_error_is_rethrown_witness :
  fetchWithRetry stockDefaults (failing certError) "u" noOpts
  = Some (Raised certError, [EvFetch 1]).
Proof.
  destruct (fatal_or_exhausted_error_is_rethrown stockDefaults (failing certError) "u" noOpts)
    as (o & tr & E & _ & First).
  destruct (First certError) as [O T].
  - vm_compute. discriminate.
  - reflexivity.
  - reflexivity.
  - rewrite E, O, T. reflexivity.
Defined.

(** A transient error in every attempt: the last one is raised after the
    budget of three retries is used up. *)
Example transient_error_until_exhausted :
  fetchWithRetry stockDefaults (failing connectionReset) "u" noOpts
  = Some (Raised connectionReset,
          [EvFetch 1; EvSleep 1 500; EvFetch 2; EvSleep 2 1000;
           EvFetch 3; EvSleep 3 2000; EvFetch 4]).
Proof. vm_compute. reflexivity. Qed.

(** A 304 comes without a body.  [fetchWithRetry] returns it after the
    snippet read, which finds nothing to use up: the caller's [text()]
    succeeds, with the empty text, and the response is as it came. *)
Lemma null_body_is_returned_readable :
  fetch (answering notModified) "u" 1 = Resolved notModified /\
  ok notModified = false /\
  fetchWithRetry stockDefaults (answering notModified) "u" noOpts
  = Some (Returned notModified, [EvFetch 1; EvSnippet 1 ""]) /\
  text notModified = (inl "", notModified) /\
  ~ (exists msg, fst (text notModified) = inr msg).
Proof.
  split; [reflexivity|]. split; [reflexivity|]. split; [vm_compute; reflexivity|].
  split; [reflexivity|]. intros [msg H]. discriminate H.
Qed.

(** Claim C9, as the code has it.  A response with [ok] false that
    [fetchWithRetry] returns went through the snippet read of its last
    attempt before the return.  If its body is not [null], the body is
    marked as used by then, and a later [text()] of the caller fails instead
    of yielding the payload.  If its body is [null], there is nothing to use
    up: the response is returned as it came and a later [text()] gives the
    empty text. *)
Theorem returned_failure_has_body_consumed d w url opts :
  exists o tr, fetchWithRetry d w url opts = Some (o, tr) /\
    forall res, o = Returned res -> ok res = false ->
      (exists res0, fetch w url (attemptsMade tr) = Resolved res0 /\
                    res = afterSnippet res0 /\
                    In (EvSnippet (attemptsMade tr) (fst (readResponseSnippet res0 1500))) tr) /\
      (forall b, body res = Some b ->
                 bodyUsed b = true /\ exists msg, fst (text res) = inr msg) /\
      (body res = None ->
       fetch w url (attemptsMade tr) = Resolved res /\ text res = (inl "", res)).
Proof.
  destruct (fetchWithRetry_total d w url opts) as (o & tr & E).
  pose proof (fetchWithRetry_Run _ _ _ _ _ _ E) as R.
  exists o, tr. split; [exact E|].
  intros res O K. subst o.
  destruct (Z_lt_le_dec (retries (configure d opts)) 0) as [N | N].
  { destruct (Run_nothing _ _ _ _ _ R N) as [_ C]. discriminate. }
  pose proof (Run_budget _ _ _ _ _ R N) as B.
  destruct (Run_completions _ _ _ _ _ _ R N) as [_ Last].
  change (attempt initialState + attemptsMade tr) with (0 + attemptsMade tr) in Last.
  rewrite Z.add_0_l in Last.
  pose proof (attempt_inv (configure d opts) w url (attemptsMade tr)) as Inv.
  destruct (attemptCompletion (configure d opts) w url (attemptsMade tr))
    as [ms | res' | err] eqn:C; [contradiction | | discriminate].
  inversion Last; subst res'.
  destruct Inv as (res0 & F & [[O1 Q] | (O1 & Q & H)]).
  - subst res0. congruence.
  - subst res. split; [|split].
    + exists res0. split; [exact F|]. split; [reflexivity|].
      apply (Run_events _ _ _ _ _ _ R). simpl. split; [lia|].
      rewrite (proj2 (attempt_final_status _ w url _ res0 F O1 H)). simpl. auto.
    + intros b Bd. pose proof (afterSnippet_bodyUsed _ _ Bd) as U.
      split; [exact U|]. exists body_used_message.
      exact (text_of_used_body _ _ Bd U).
    + intros Bd. pose proof (proj1 (afterSnippet_null res0) Bd) as Bd0.
      assert (afterSnippet res0 = res0) as Same
        by (rewrite afterSnippet_text, (text_of_null_body _ Bd0); reflexivity).
      rewrite Same. split; [exact F | exact (text_of_null_body _ Bd0)].
Qed.

Lemma returned_failure_has_body_consumed_witness :
  exists tr,
    fetchWithRetry stockDefaults (always 404 [] 0) "u" noOpts
    = Some (Returned (afterSnippet (response 404 [])), tr) /\
    exists msg, fst (text (afterSnippet (response 404 []))) = inr msg.
Proof.
  destruct (returned_failure_has_body_consumed stockDefaults (always 404 [] 0) "u" noOpts)
    as (o & tr & E & H).
  exists tr.
  assert (o = Returned (afterSnippet (response 404 []))) as O
    by (vm_compute in E; inversion E; reflexivity).
  destruct (H _ O eq_refl) as (_ & T & _).
  rewrite <- O. split; [exact E|].
  exact (proj2 (T (mkBody true (inl "payload")) eq_refl)).
Defined.

(** * Classification of statuses *)

(** Claim C5.  A response that completed with [ok] false leads to another
    attempt exactly when its status is 429 or lies in [500, 600) (and the
    budget allows one); with any other status the response is terminal: it
    is returned at once and the attempt is the last one of the call. *)
Theorem retry_exactly_on_429_and_5xx d w url opts k res :
  fetch w url k = Resolved res -> ok res = false ->
  ((exists waitMs, attemptCompletion (configure d opts) w url k = Continue waitMs) <->
   ((status res = 429 \/ 500 <= status res < 600) /\ k <= retries (configure d opts))) /\
  (~ (status res = 429 \/ 500 <= status res < 600) ->
   attemptCompletion (configure d opts) w url k = Return (afterSnippet res) /\
   forall o tr, fetchWithRetry d w url opts = Some (o, tr) -> In (EvFetch k) tr ->
                o = Returned (afterSnippet res) /\ attemptsMade tr = k).
Proof.
  intros F O. split.
  - split.
    + intros [ms C].
      pose proof (attempt_inv (configure d opts) w url k) as Inv. rewrite C in Inv.
      destruct Inv as [B [(res0 & F0 & _ & R & _) | (err & F0 & _)]];
        rewrite F in F0; inversion F0; subst.
      split; [now apply isRetryableStatus_spec | exact B].
    + intros [S B]. apply isRetryableStatus_spec in S.
      destruct (attempt_retry_status (configure d opts) w url k res F O S B) as [C _].
      eauto.
  - intros S.
    assert (isRetryableStatus (status res) = false) as R.
    { destruct (isRetryableStatus (status res)) eqn:R; [|reflexivity].
      apply isRetryableStatus_spec in R. contradiction. }
    destruct (attempt_final_status (configure d opts) w url k res F O (or_introl R))
      as [C _].
    split; [exact C|].
    intros o tr E I.
    exact (Run_returns _ _ _ _ _ _ _ (fetchWithRetry_Run _ _ _ _ _ _ E) I C).
Qed.

Lemma retry_exactly_on_429_and_5xx_witness :
  attemptCompletion (configure stockDefaults noOpts) (always 404 [] 0) "u" 1
  = Return (afterSnippet (response 404 [])).
Proof.
  apply (retry_exactly_on_429_and_5xx stockDefaults (always 404 [] 0) "u" noOpts
           1 (response 404 [])).
  - reflexivity.
  - reflexivity.
  - vm_compute. intros [H | [H _]]; [discriminate H | apply H; reflexivity].
Defined.

(** Claim C2, as the code has it.  No status makes [fetchWithRetry] raise:
    a response with [ok] true is returned at once, one with a terminal status
    is returned without a retry, and one with a retryable status is returned
    when it arrives in the last attempt the budget allows.  What is raised is
    the error that the last call of [fetch] failed with, except that a call
    with [retries < 0] raises the generic "failed to fetch" error without
    having called [fetch] at all. *)
Theorem statuses_are_returned_not_raised d w url opts :
  exists o tr, fetchWithRetry d w url opts = Some (o, tr) /\
    (forall k res,
       In (EvFetch k) tr -> fetch w url k = Resolved res ->
       (ok res = true -> o = Returned res /\ attemptsMade tr = k) /\
       (ok res = false -> isRetryableStatus (status res) = false ->
        o = Returned (afterSnippet res) /\ attemptsMade tr = k) /\
       (ok res = false -> isRetryableStatus (status res) = true ->
        k = retries (configure d opts) + 1 ->
        o = Returned (afterSnippet res) /\ attemptsMade tr = k)) /\
    (forall err, o = Raised err ->
       (In (EvFetch (attemptsMade tr)) tr /\
        fetch w url (attemptsMade tr) = Rejected err) \/
       (retries (configure d opts) < 0 /\ tr = [] /\ err = failedToFetch url)).
Proof.
  destruct (fetchWithRetry_total d w url opts) as (o & tr & E).
  pose proof (fetchWithRetry_Run _ _ _ _ _ _ E) as R.
  exists o, tr. split; [exact E|]. split.
  - intros k res I F. split; [|split].
    + intros O.
      destruct (attempt_ok (configure d opts) w url k res F O) as [C _].
      apply (Run_returns _ _ _ _ _ _ _ R I C).
    + intros O S.
      destruct (attempt_final_status (configure d opts) w url k res F O (or_introl S))
        as [C _].
      apply (Run_returns _ _ _ _ _ _ _ R I C).
    + intros O S B.
      assert (retries (configure d opts) < k) as B' by lia.
      destruct (attempt_final_status (configure d opts) w url k res F O (or_intror B'))
        as [C _].
      apply (Run_returns _ _ _ _ _ _ _ R I C).
  - intros err O. subst o.
    destruct (Z_lt_le_dec (retries (configure d opts)) 0) as [N | N].
    + right. destruct (Run_nothing _ _ _ _ _ R N) as [T C].
      inversion C. auto.
    + left. pose proof (Run_budget _ _ _ _ _ R N) as B.
      split; [apply (Run_made _ _ _ _ _ _ R); lia|].
      destruct (Run_completions _ _ _ _ _ _ R N) as [_ Last].
      change (attempt initialState + attemptsMade tr) with (0 + attemptsMade tr) in Last.
      rewrite Z.add_0_l in Last.
      pose proof (attempt_inv (configure d opts) w url (attemptsMade tr)) as Inv.
      destruct (attemptCompletion (configure d opts) w url (attemptsMade tr))
        as [ms | res' | err']; [contradiction | discriminate |].
      inversion Last; subst err'. exact (proj1 Inv).
Qed.

(** Four answers 429 in a row with the stock budget of 3 retries: the fourth
    response is returned. *)
Lemma statuses_are_returned_not_raised_witness :
  exists tr,
    fetchWithRetry stockDefaults (always 429 [] 0) "u" noOpts
    = Some (Returned (afterSnippet (response 429 [])), tr) /\
    attemptsMade tr = 4.
Proof.
  destruct (statuses_are_returned_not_raised stockDefaults (always 429 [] 0) "u" noOpts)
    as (o & tr & E & H & _).
  exists tr.
  assert (In (EvFetch 4) tr) as I.
  { vm_compute in E. inversion E. simpl. auto 12. }
  destruct (H 4 (response 429 []) I eq_refl) as (_ & _ & L).
  destruct (L eq_refl eq_refl eq_refl) as [O M].
  rewrite <- O. split; [exact E | exact M].
Defined.

(** In a world whose server answers every request with 200, a call with
    [retries = -1] still raises: the error is not a transport failure, since
    [fetch] was never called. *)
Lemma raise_without_transport_failure :
  (forall k, fetch (always 200 [] 0) "u" k = Resolved (response 200 [])) /\
  fetchWithRetry stockDefaults (always 200 [] 0) "u" (mkOpts None (Some (-1)) None)
  = Some (Raised (failedToFetch "u"), []) /\
  ~ (exists k err, In (EvFetch k) [] /\ fetch (always 200 [] 0) "u" k = Rejected err).
Proof.
  split; [reflexivity|]. split; [reflexivity|].
  intros (k & err & I & _). exact I.
Qed.

(** * Waits *)

(** A [Retry-After] of 0 seconds is read as "no hint": with the stock
    configuration the first retry then waits the backoff of 500 ms, not
    [0 * 1000] ms. *)
Lemma retry_after_zero_uses_backoff :
  (fetch (hinted "0") "u" 1 = Resolved (response 503 [("retry-after", "0")]) /\
   ok (response 503 [("retry-after", "0")]) = false /\
   isRetryableStatus (status (response 503 [("retry-after", "0")])) = true /\
   1 <= retries (configure stockDefaults noOpts) /\
   headers_get (headers (response 503 [("retry-after", "0")])) "retry-after" = Some "0" /\
   parseInt "0" = Some 0 /\
   0 <= 0 <= maxRetryAfterSecs (configure stockDefaults noOpts)) /\
  attemptCompletion (configure stockDefaults noOpts) (hinted "0") "u" 1 = Continue 500 /\
  Continue 500 <> Continue (0 * 1000) /\
  exists o tr, fetchWithRetry stockDefaults (hinted "0") "u" noOpts = Some (o, tr) /\
               sleeps tr = [500; 1000; 2000].
Proof.
  split; [|split; [|split]].
  - repeat split; try reflexivity; vm_compute; discriminate.
  - vm_compute. reflexivity.
  - discriminate.
  - eexists. eexists. split; [vm_compute; reflexivity | reflexivity].
Qed.

(** Claim C3, as the code has it.  When an attempt completes with a
    retryable status while budget remains and the response carries a
    [Retry-After] header that [parseInt] reads as an integer [H] with
    [0 < H <= maxRetryAfterSecs], the attempt is followed by a sleep of exactly
    [H * 1000] ms, whatever the attempt number. *)
Theorem retry_after_seconds_wait d w url opts k res ra H :
  fetch w url k = Resolved res -> ok res = false ->
  isRetryableStatus (status res) = true ->
  k <= retries (configure d opts) ->
  headers_get (headers res) "retry-after" = Some ra ->
  parseInt ra = Some H ->
  0 < H <= maxRetryAfterSecs (configure d opts) ->
  attemptCompletion (configure d opts) w url k = Continue (H * 1000) /\
  forall o tr, fetchWithRetry d w url opts = Some (o, tr) ->
               In (EvFetch k) tr -> In (EvSleep k (H * 1000)) tr.
Proof.
  intros F O S B G P Hr.
  destruct (attempt_retry_status (configure d opts) w url k res F O S B) as [C _].
  assert (retryWaitMs (configure d opts) w k (afterSnippet res) = H * 1000) as W.
  { destruct (afterSnippet_head res) as (_ & _ & _ & Hd).
    assert (headerWaitMs (configure d opts) w k
              (headers_get (headers (afterSnippet res)) "retry-after") = H * 1000) as HW.
    { rewrite Hd, G, (headerWaitMs_integer _ _ _ _ _ P).
      rewrite Z.min_l by lia. reflexivity. }
    rewrite retryWaitMs_header; rewrite HW; lia. }
  rewrite W in C. split; [exact C|].
  intros o tr E I.
  apply (Run_sleep _ _ _ _ _ _ _ (fetchWithRetry_Run _ _ _ _ _ _ E)). auto.
Qed.

Lemma retry_after_seconds_wait_witness :
  attemptCompletion (configure stockDefaults noOpts) (hinted "7") "u" 3
  = Continue (7 * 1000).
Proof.
  apply (retry_after_seconds_wait stockDefaults (hinted "7") "u" noOpts 3
           (response 503 [("retry-after", "7")]) "7" 7).
  - reflexivity.
  - reflexivity.
  - reflexivity.
  - vm_compute. discriminate.
  - reflexivity.
  - reflexivity.
  - vm_compute. split; [reflexivity | discriminate].
Defined.

(** A header above the cap is cut down to it. *)
Example retry_after_is_capped :
  attemptCompletion (configure stockDefaults noOpts) (hinted "3600") "u" 1
  = Continue 120000.
Proof. vm_compute. reflexivity. Qed.

(** With [backoffBase = 4] and a draw of 0.9 the first backoff is 5 ms, which
    is more than [4 * 1.15]: [delta = floor(4 * 0.3 * 0.9) = 1] and
    [jitter(4) = 4 - floor(1 / 2) + 1]. *)
Lemma small_base_wait_exceeds_15_percent :
  random_ok (always 503 [] (9 # 10)) /\
  (forall k, fetch (always 503 [] (9 # 10)) "u" k = Resolved (response 503 []) /\
             ok (response 503 []) = false /\
             isRetryableStatus (status (response 503 [])) = true /\
             headers_get (headers (response 503 [])) "retry-after" = None) /\
  exists o tr,
    fetchWithRetry stockDefaults (always 503 [] (9 # 10)) "u" (mkOpts None None (Some 4))
    = Some (o, tr) /\
    In (EvSleep 1 5) tr /\
    ~ ((85 # 100) * inject_Z (4 * 2 ^ (1 - 1)) <= inject_Z 5
       <= (115 # 100) * inject_Z (4 * 2 ^ (1 - 1)))%Q.
Proof.
  split; [|split].
  - intros k. split; vm_compute; [discriminate | reflexivity].
  - intros k. repeat split.
  - eexists. eexists. split; [vm_compute; reflexivity|].
    split; [simpl; auto|].
    intros [_ H]. vm_compute in H. apply H. reflexivity.
Qed.

(** Claim C4, as the code has it.  When every attempt fails with a
    retryable status and carries no [Retry-After] header, there is a sleep
    after each attempt [k] with budget remaining, and for every random draw
    it differs from [base = backoffBase * 2^(k-1)] by at most 15% of [|base|]
    plus half a millisecond of rounding:
    [|waitMs - base| <= 0.15 * |base| + 0.5]. *)
Theorem backoff_wait_within_15_percent d w url opts :
  random_ok w ->
  (forall k, exists res, fetch w url k = Resolved res /\ ok res = false /\
                         isRetryableStatus (status res) = true /\
                         headers_get (headers res) "retry-after" = None) ->
  exists o tr, fetchWithRetry d w url opts = Some (o, tr) /\
    (forall k, 1 <= k <= retries (configure d opts) ->
               exists waitMs, In (EvSleep k waitMs) tr) /\
    (forall k waitMs, In (EvSleep k waitMs) tr ->
       1 <= k <= retries (configure d opts) /\
       20 * Z.abs (waitMs - backoffBase (configure d opts) * 2 ^ (k - 1))
       <= 3 * Z.abs (backoffBase (configure d opts) * 2 ^ (k - 1)) + 10).
Proof.
  intros Rnd All.
  destruct (fetchWithRetry_total d w url opts) as (o & tr & E).
  pose proof (fetchWithRetry_Run _ _ _ _ _ _ E) as R.
  exists o, tr. split; [exact E|].
  assert (forall k, k <= retries (configure d opts) ->
            attemptCompletion (configure d opts) w url k
            = Continue (backoffWaitMs (configure d opts) w k)) as Step.
  { intros k B. destruct (All k) as (res & F & O & S & G).
    destruct (attempt_retry_status (configure d opts) w url k res F O S B) as [C _].
    rewrite C. f_equal. apply retryWaitMs_backoff.
    destruct (afterSnippet_head res) as (_ & _ & _ & Hd). rewrite Hd, G.
    simpl. lia. }
  split.
  - intros k B.
    assert (0 <= retries (configure d opts)) as N by lia.
    pose proof (Run_budget _ _ _ _ _ R N) as M.
    destruct (Run_completions _ _ _ _ _ _ R N) as [_ Last].
    change (attempt initialState + attemptsMade tr) with (0 + attemptsMade tr) in Last.
    rewrite Z.add_0_l in Last.
    assert (attemptsMade tr = retries (configure d opts) + 1) as Full.
    { destruct (Z_le_gt_dec (attemptsMade tr) (retries (configure d opts))) as [L | L];
        [|lia].
      rewrite (Step _ L) in Last. contradiction. }
    exists (backoffWaitMs (configure d opts) w k).
    apply (Run_sleep _ _ _ _ _ _ _ R). split; [|apply Step; lia].
    apply (Run_made _ _ _ _ _ _ R). lia.
  - intros k ms I.
    apply (Run_sleep _ _ _ _ _ _ _ R) in I. destruct I as [I C].
    pose proof (Run_made_budget _ _ _ _ _ _ R I) as (N & M & _).
    pose proof (attempt_inv (configure d opts) w url k) as Inv. rewrite C in Inv.
    destruct Inv as [B _]. split; [lia|].
    rewrite (Step k B) in C. inversion C; subst ms.
    unfold backoffWaitMs. destruct (Rnd k) as [R0 R1].
    apply jitter_near; assumption.
Qed.

Lemma backoff_wait_within_15_percent_witness :
  exists o tr,
    fetchWithRetry stockDefaults (always 503 [] (1 # 2)) "u" noOpts = Some (o, tr) /\
    forall k waitMs, In (EvSleep k waitMs) tr ->
      1 <= k <= 3 /\
      20 * Z.abs (waitMs - 500 * 2 ^ (k - 1)) <= 3 * Z.abs (500 * 2 ^ (k - 1)) + 10.
Proof.
  destruct (backoff_wait_within_15_percent stockDefaults (always 503 [] (1 # 2)) "u" noOpts)
    as (o & tr & E & _ & H).
  - intros k. split; vm_compute; [discriminate | reflexivity].
  - intros k. exists (response 503 []). repeat split.
  - exists o, tr. split; [exact E | exact H].
Defined.

(** [backoffBase] may be any integer; with a negative one the backoff, and so
    the argument of [sleep], is negative. *)
Lemma negative_backoffBase_negative_wait :
  random_ok (always 503 [] 0) /\
  exists o tr,
    fetchWithRetry stockDefaults (always 503 [] 0) "u" (mkOpts None None (Some (-500)))
    = Some (o, tr) /\
    In (EvSleep 1 (-500)) tr /\ -500 < 0.
Proof.
  split.
  - intros k. split; vm_compute; [discriminate | reflexivity].
  - eexists. eexists. split; [vm_compute; reflexivity|].
    split; [simpl; auto | reflexivity].
Qed.

(** Claim C8, as the code has it.  For every configuration, a wait that is
    taken from a [Retry-After] header (seconds or date) is at most
    [maxRetryAfterSecs * 1000] ms, whatever [Math.random] draws.  When
    [backoffBase] is not negative (and the draws of [Math.random] are in
    [0, 1)), every wait slept between attempts is at least 0. *)
Theorem waits_nonnegative_and_header_capped d w url opts :
  exists o tr, fetchWithRetry d w url opts = Some (o, tr) /\
    forall k waitMs, In (EvSleep k waitMs) tr ->
      (forall res, fetch w url k = Resolved res ->
         0 < headerWaitMs (configure d opts) w k (headers_get (headers res) "retry-after") ->
         waitMs = headerWaitMs (configure d opts) w k (headers_get (headers res) "retry-after") /\
         waitMs <= maxRetryAfterSecs (configure d opts) * 1000) /\
      (random_ok w -> 0 <= backoffBase (configure d opts) -> 0 <= waitMs).
Proof.
  destruct (fetchWithRetry_total d w url opts) as (o & tr & E).
  pose proof (fetchWithRetry_Run _ _ _ _ _ _ E) as R.
  exists o, tr. split; [exact E|].
  intros k ms I.
  apply (Run_sleep _ _ _ _ _ _ _ R) in I. destruct I as [I C].
  pose proof (attempt_inv (configure d opts) w url k) as Inv. rewrite C in Inv.
  destruct Inv as [B [(res0 & F0 & O & S & W) | (err & F0 & T & W)]].
  - split.
    + intros res F Hd. rewrite F0 in F. inversion F; subst res0.
      destruct (afterSnippet_head res) as (_ & _ & _ & Hs).
      rewrite retryWaitMs_header in W by (rewrite Hs; exact Hd).
      rewrite Hs in W. split; [exact W|].
      rewrite W. apply headerWaitMs_capped. exact Hd.
    + intros Rnd Base. subst ms. now apply retryWaitMs_nonneg.
  - split.
    + intros res F. congruence.
    + intros Rnd Base. subst ms. now apply backoffWaitMs_nonneg.
Qed.

Lemma waits_nonnegative_and_header_capped_witness :
  exists o tr,
    fetchWithRetry stockDefaults (hinted "3600") "u" noOpts = Some (o, tr) /\
    In (EvSleep 1 120000) tr /\
    forall k waitMs, In (EvSleep k waitMs) tr ->
      0 <= waitMs <= maxRetryAfterSecs (configure stockDefaults noOpts) * 1000.
Proof.
  destruct (waits_nonnegative_and_header_capped stockDefaults (hinted "3600") "u" noOpts)
    as (o & tr & E & H).
  exists o, tr. split; [exact E|]. split.
  - vm_compute in E. inversion E. simpl. auto.
  - intros k ms I. destruct (H k ms I) as [Cap Pos]. split.
    + apply Pos.
      * intros j. split; vm_compute; [discriminate | reflexivity].
      * vm_compute. discriminate.
    + apply (Cap (response 503 [("retry-after", "3600")]) eq_refl). reflexivity.
Defined.

(** The cap applies to a header that carries a date as well. *)
Example retry_after_date_is_capped :
  attemptCompletion (configure stockDefaults noOpts)
    (mkWorld (fun _ _ => Resolved (response 503 [("retry-after", "Wed, 21 Oct 2026 07:28:00 GMT")]))
             (fun _ => 0%Q) (fun _ => 1000000) (fun _ => Some 1500000))
    "u" 1
  = Continue 120000.
Proof. vm_compute. reflexivity. Qed.

(** * The scenarios of the probes *)

(** A 503 followed by a 200: the 200 is returned after one backoff sleep. *)
Example recovers_after_503 :
  fetchWithRetry stockDefaults (recovering 1 503) "u" noOpts
  = Some (Returned (response 200 []),
          [EvFetch 1; EvSnippet 1 "payload"; EvSleep 1 500; EvFetch 2]).
Proof. vm_compute. reflexivity. Qed.

(** A connection reset followed by a 200: one retry is used. *)
Example recovers_after_connection_reset :
  fetchWithRetry stockDefaults (failingOnce connectionReset) "u" noOpts
  = Some (Returned (response 200 []), [EvFetch 1; EvSleep 1 500; EvFetch 2]).
Proof. vm_compute. reflexivity. Qed.

(** The per-attempt timeout fires in attempt 1: the abort is transient and
    attempt 2 goes ahead. *)
Example recovers_after_timeout :
  fetchWithRetry stockDefaults (failingOnce aborted) "u" noOpts
  = Some (Returned (response 200 []), [EvFetch 1; EvSleep 1 500; EvFetch 2]).
Proof. vm_compute. reflexivity. Qed.

(** * More about runs *)

Section MoreRuns.

Variables (c : Config) (w : World) (url : string).

Lemma Run_deterministic st o tr :
  Run c w url st o tr ->
  forall o' tr', Run c w url st o' tr' -> o = o' /\ tr = tr'.
Proof.
  induction 1 as [st G | st res st' evs G E | st err st' evs G E
                 | st ms st' evs o rest G E R IH];
    intros o' tr' R'; inversion R'; subst; try lia;
    try match goal with
        | H : iteration c w url ?s = _ |- _ =>
            rewrite E in H; inversion H; subst
        end;
    auto.
  match goal with H : Run c w url _ _ _ |- _ => destruct (IH _ _ H) as [-> ->] end.
  auto.
Qed.

Lemma Run_loop st o tr fuel :
  Run c w url st o tr ->
  (Z.to_nat (retries c + 1 - attempt st) <= fuel)%nat ->
  loop fuel c w url st = Some (o, tr).
Proof.
  intros R F. destruct (loop_total c w url fuel st F) as (o' & tr' & L).
  destruct (Run_deterministic _ _ _ R _ _ (loop_Run _ _ _ _ _ _ _ L)) as [-> ->].
  exact L.
Qed.

Lemma fetchAttempts_app tr1 tr2 :
  fetchAttempts (tr1 ++ tr2) = fetchAttempts tr1 ++ fetchAttempts tr2.
Proof. unfold fetchAttempts. now rewrite filter_app, map_app. Qed.

Lemma sleeps_app tr1 tr2 : sleeps (tr1 ++ tr2) = sleeps tr1 ++ sleeps tr2.
Proof.
  induction tr1 as [|ev tr1 IH]; [reflexivity|].
  destruct ev; simpl; rewrite IH; reflexivity.
Qed.

Lemma iteration_fetchAttempts st :
  fetchAttempts (snd (iteration c w url st)) = [attempt st + 1].
Proof. iteration_case c w url st; reflexivity. Qed.

Lemma iteration_sleeps st :
  sleeps (snd (iteration c w url st)) =
  match fst (fst (iteration c w url st)) with
  | Continue waitMs => [waitMs]
  | _ => []
  end.
Proof. iteration_case c w url st; reflexivity. Qed.

Lemma fetchAttempts_length tr :
  List.length (fetchAttempts tr) = Z.to_nat (attemptsMade tr).
Proof. unfold fetchAttempts, attemptsMade. rewrite length_map. lia. Qed.

Lemma shifted_range (f : Z -> Z) a n :
  map (fun i => f (a + Z.of_nat i)) (seq 1 (S n)) =
  f (a + 1) :: map (fun i => f (a + 1 + Z.of_nat i)) (seq 1 n).
Proof.
  simpl. f_equal. rewrite <- seq_shift, map_map.
  apply map_ext. intros i. f_equal. lia.
Qed.

Lemma Run_fetchAttempts st o tr :
  Run c w url st o tr ->
  fetchAttempts tr =
  map (fun i => attempt st + Z.of_nat i) (seq 1 (Z.to_nat (attemptsMade tr))).
Proof.
  induction 1 as [st G | st res st' evs G E | st err st' evs G E
                 | st ms st' evs o rest G E R IH].
  - reflexivity.
  - pose proof (iteration_one_fetch c w url st) as N. rewrite E in N. simpl in N.
    pose proof (iteration_fetchAttempts st) as A. rewrite E in A. simpl in A.
    rewrite N, A. reflexivity.
  - pose proof (iteration_one_fetch c w url st) as N. rewrite E in N. simpl in N.
    pose proof (iteration_fetchAttempts st) as A. rewrite E in A. simpl in A.
    rewrite N, A. reflexivity.
  - pose proof (iteration_one_fetch c w url st) as N. rewrite E in N. simpl in N.
    pose proof (iteration_fetchAttempts st) as A. rewrite E in A. simpl in A.
    pose proof (iteration_attempt c w url st) as T. rewrite E in T. simpl in T.
    pose proof (attemptsMade_nonneg rest) as P.
    rewrite fetchAttempts_app, attemptsMade_app, A, N, IH, T.
    replace (Z.to_nat (1 + attemptsMade rest)) with (S (Z.to_nat (attemptsMade rest))) by lia.
    rewrite (shifted_range (fun z => z)). reflexivity.
Qed.

Lemma Run_sleeps st o tr :
  Run c w url st o tr -> attempt st <= retries c ->
  sleeps tr =
  map (fun i => waitAfter c w url (attempt st + Z.of_nat i))
      (seq 1 (Z.to_nat (attemptsMade tr - 1))).
Proof.
  induction 1 as [st G | st res st' evs G E | st err st' evs G E
                 | st ms st' evs o rest G E R IH]; intros Le.
  - lia.
  - pose proof (iteration_one_fetch c w url st) as N. rewrite E in N. simpl in N.
    pose proof (iteration_sleeps st) as S. rewrite E in S. simpl in S.
    rewrite N, S. reflexivity.
  - pose proof (iteration_one_fetch c w url st) as N. rewrite E in N. simpl in N.
    pose proof (iteration_sleeps st) as S. rewrite E in S. simpl in S.
    rewrite N, S. reflexivity.
  - pose proof (iteration_one_fetch c w url st) as N. rewrite E in N. simpl in N.
    pose proof (iteration_sleeps st) as S. rewrite E in S. simpl in S.
    pose proof (iteration_attempt c w url st) as T. rewrite E in T. simpl in T.
    pose proof (iteration_view c w url st) as [V _]. rewrite E in V. simpl in V.
    pose proof (iteration_continue_budget _ _ _ _ _ _ _ E) as B.
    destruct (Run_attempts _ _ _ _ _ _ R) as [_ M]. specialize (M ltac:(lia)).
    rewrite sleeps_app, attemptsMade_app, S, N, IH, T by lia.
    replace (Z.to_nat (1 + attemptsMade rest - 1))
      with (Datatypes.S (Z.to_nat (attemptsMade rest - 1))) by lia.
    rewrite (shifted_range (waitAfter c w url)).
    unfold waitAfter at 2. rewrite <- V. reflexivity.
Qed.

End MoreRuns.

Lemma fetchWithRetry_of_Run d w url opts o tr :
  Run (configure d opts) w url initialState o tr ->
  fetchWithRetry d w url opts = Some (o, tr).
Proof.
  intros R. unfold fetchWithRetry. apply Run_loop; [exact R | simpl; lia].
Qed.

(** Property X1.  The calls of [fetch] of one call of [fetchWithRetry] carry the attempt
    numbers 1, 2, ..., [attemptsMade], in this order. *)
Theorem attempts_numbered_in_order d w url opts :
  exists o tr, fetchWithRetry d w url opts = Some (o, tr) /\
               fetchAttempts tr = oneTo (Z.to_nat (attemptsMade tr)).
Proof.
  destruct (fetchWithRetry_total d w url opts) as (o & tr & E).
  exists o, tr. split; [exact E|].
  rewrite (Run_fetchAttempts _ _ _ _ _ _ (fetchWithRetry_Run _ _ _ _ _ _ E)).
  unfold oneTo. apply map_ext. intros i. reflexivity.
Qed.

(** Property X2.  A call sleeps once after each attempt but the last, for the wait that
    attempt computed, and never otherwise: the sleeps of the call are the
    waits of the attempts 1, ..., [attemptsMade - 1], in this order. *)
Theorem sleeps_are_between_attempts d w url opts :
  exists o tr, fetchWithRetry d w url opts = Some (o, tr) /\
    sleeps tr = map (waitAfter (configure d opts) w url)
                    (oneTo (Z.to_nat (attemptsMade tr - 1))) /\
    List.length (sleeps tr) = Z.to_nat (attemptsMade tr - 1).
Proof.
  destruct (fetchWithRetry_total d w url opts) as (o & tr & E).
  pose proof (fetchWithRetry_Run _ _ _ _ _ _ E) as R.
  exists o, tr. split; [exact E|].
  assert (sleeps tr = map (waitAfter (configure d opts) w url)
                          (oneTo (Z.to_nat (attemptsMade tr - 1)))) as S.
  { destruct (Z_lt_le_dec (retries (configure d opts)) 0) as [N | N].
    - destruct (Run_nothing _ _ _ _ _ R N) as [-> _]. reflexivity.
    - rewrite (Run_sleeps _ _ _ _ _ _ R N).
      unfold oneTo. rewrite map_map. apply map_ext. intros i. reflexivity. }
  split; [exact S|].
  rewrite S. unfold oneTo. now rewrite !length_map, length_seq.
Qed.

(** Property X3.  The first attempt that does not end with [continue] decides the call:
    when the attempts before attempt [n] all end with [continue] and attempt
    [n] returns a response or throws, the call returns that response or
    raises that error, after exactly [n] attempts. *)
Theorem first_final_attempt_decides d w url opts n :
  0 <= retries (configure d opts) -> 1 <= n ->
  (forall k, 1 <= k < n ->
     exists waitMs, attemptCompletion (configure d opts) w url k = Continue waitMs) ->
  (forall res, attemptCompletion (configure d opts) w url n = Return res ->
     exists tr, fetchWithRetry d w url opts = Some (Returned res, tr) /\
                attemptsMade tr = n) /\
  (forall err, attemptCompletion (configure d opts) w url n = Throw err ->
     exists tr, fetchWithRetry d w url opts = Some (Raised err, tr) /\
                attemptsMade tr = n).
Proof.
  intros N Pos Before.
  destruct (fetchWithRetry_total d w url opts) as (o & tr & E).
  pose proof (fetchWithRetry_Run _ _ _ _ _ _ E) as R.
  pose proof (Run_budget _ _ _ _ _ R N) as B.
  destruct (Run_completions _ _ _ _ _ _ R N) as [Mid Last].
  change (attempt initialState) with 0 in Mid, Last.
  rewrite Z.add_0_l in Last.
  assert (forall cpl, attemptCompletion (configure d opts) w url n = cpl ->
            (forall ms, cpl <> Continue ms) -> attemptsMade tr = n) as Same.
  { intros cpl C Fin.
    destruct (Z.lt_trichotomy (attemptsMade tr) n) as [L | [L | L]]; [|exact L|].
    - destruct (Before (attemptsMade tr) ltac:(lia)) as [ms C'].
      rewrite C' in Last. contradiction.
    - destruct (Mid n ltac:(lia)) as [ms C']. rewrite C' in C.
      subst cpl. exfalso. apply (Fin ms). reflexivity. }
  split.
  - intros res C. pose proof (Same _ C ltac:(discriminate)) as M.
    rewrite M, C in Last. subst o. eauto.
  - intros err C. pose proof (Same _ C ltac:(discriminate)) as M.
    rewrite M, C in Last. subst o. eauto.
Qed.

Lemma first_final_attempt_decides_witness :
  exists tr, fetchWithRetry stockDefaults (recovering 2 503) "u" noOpts
             = Some (Returned (response 200 []), tr) /\
             attemptsMade tr = 3.
Proof.
  destruct (first_final_attempt_decides stockDefaults (recovering 2 503) "u" noOpts 3)
    as [Ret _].
  - vm_compute. discriminate.
  - vm_compute. discriminate.
  - intros k Hk.
    assert (k = 1 \/ k = 2) as [-> | ->] by lia; eexists; vm_compute; reflexivity.
  - apply Ret. vm_compute. reflexivity.
Defined.

(** ** The budget *)

Lemma iteration_same_budget c c' w url st :
  backoffBase c = backoffBase c' ->
  maxRetryAfterSecs c = maxRetryAfterSecs c' ->
  (attempt st + 1 <=? retries c) = (attempt st + 1 <=? retries c') ->
  iteration c w url st = iteration c' w url st.
Proof.
  intros B M L. unfold iteration, retryWaitMs, backoffWaitMs, headerWaitMs.
  rewrite B, M, L. reflexivity.
Qed.

Lemma Run_larger_budget c c' w url st o tr :
  backoffBase c = backoffBase c' ->
  maxRetryAfterSecs c = maxRetryAfterSecs c' ->
  retries c <= retries c' ->
  Run c w url st o tr ->
  attempt st + attemptsMade tr <= retries c ->
  Run c' w url st o tr.
Proof.
  intros B M L R.
  induction R as [st G | st res st' evs G E | st err st' evs G E
                 | st ms st' evs o rest G E R IH]; intros Le.
  - unfold attemptsMade in Le. simpl in Le. lia.
  - pose proof (iteration_one_fetch c w url st) as N. rewrite E in N. simpl in N.
    rewrite (iteration_same_budget c c') in E by (auto; lia).
    eapply Run_return; [lia | exact E].
  - pose proof (iteration_one_fetch c w url st) as N. rewrite E in N. simpl in N.
    rewrite (iteration_same_budget c c') in E by (auto; lia).
    eapply Run_throw; [lia | exact E].
  - pose proof (iteration_one_fetch c w url st) as N. rewrite E in N. simpl in N.
    pose proof (iteration_attempt c w url st) as T. rewrite E in T. simpl in T.
    pose proof (attemptsMade_nonneg rest) as P.
    rewrite attemptsMade_app, N in Le.
    rewrite (iteration_same_budget c c') in E by (auto; lia).
    eapply Run_continue; [lia | exact E | apply IH; lia].
Qed.

(** Property X4.  A call that came back with budget to spare is not changed by a larger
    budget: when a call with [retries = n] ends after at most [n] attempts,
    the call with any [retries = n' >= n] has the same outcome and does
    the same, attempt by attempt and sleep by sleep. *)
Theorem larger_budget_same_call d w url opts n n' o tr :
  opt_retries opts = Some n -> n <= n' ->
  fetchWithRetry d w url opts = Some (o, tr) ->
  attemptsMade tr <= n ->
  fetchWithRetry d w url (mkOpts (opt_timeoutMs opts) (Some n') (opt_backoffBase opts))
  = Some (o, tr).
Proof.
  intros O L E Le.
  apply fetchWithRetry_of_Run.
  apply (Run_larger_budget (configure d opts)); try reflexivity.
  - unfold configure. rewrite O. simpl. exact L.
  - exact (fetchWithRetry_Run _ _ _ _ _ _ E).
  - unfold configure. rewrite O. simpl. exact Le.
Qed.

Lemma larger_budget_same_call_witness :
  fetchWithRetry stockDefaults (recovering 1 503) "u" (mkOpts None (Some 7) None)
  = Some (Returned (response 200 []),
          [EvFetch 1; EvSnippet 1 "payload"; EvSleep 1 500; EvFetch 2]).
Proof.
  apply (larger_budget_same_call stockDefaults (recovering 1 503) "u"
           (mkOpts None (Some 3) None) 3 7).
  - reflexivity.
  - vm_compute. discriminate.
  - vm_compute. reflexivity.
  - vm_compute. discriminate.
Defined.

(** Property X5.  When every attempt fails in a way that is retried (a retryable status,
    or a transient error), a call with [retries >= 0] uses its budget up:
    it makes exactly [retries + 1] attempts, sleeps [retries] times, and
    comes back with what the last attempt gave, the response returned or
    the error raised. *)
Theorem retryable_failures_use_budget_up d w url opts :
  0 <= retries (configure d opts) ->
  (forall k,
     (exists res, fetch w url k = Resolved res /\ ok res = false /\
                  isRetryableStatus (status res) = true) \/
     (exists err, fetch w url k = Rejected err /\ isTransientError err = true)) ->
  exists o tr, fetchWithRetry d w url opts = Some (o, tr) /\
    attemptsMade tr = retries (configure d opts) + 1 /\
    List.length (sleeps tr) = Z.to_nat (retries (configure d opts)) /\
    match fetch w url (retries (configure d opts) + 1) with
    | Resolved res => o = Returned (afterSnippet res)
    | Rejected err => o = Raised err
    end.
Proof.
  intros N All.
  destruct (fetchWithRetry_total d w url opts) as (o & tr & E).
  pose proof (fetchWithRetry_Run _ _ _ _ _ _ E) as R.
  exists o, tr. split; [exact E|].
  pose proof (Run_budget _ _ _ _ _ R N) as B.
  destruct (Run_completions _ _ _ _ _ _ R N) as [_ Last].
  change (attempt initialState) with 0 in Last. rewrite Z.add_0_l in Last.
  assert (attemptsMade tr = retries (configure d opts) + 1) as Full.
  { destruct (Z_le_gt_dec (attemptsMade tr) (retries (configure d opts))) as [L | L];
      [|lia].
    destruct (All (attemptsMade tr)) as [(res & F & O & S) | (err & F & T)].
    - rewrite (proj1 (attempt_retry_status _ w url _ res F O S L)) in Last.
      contradiction.
    - rewrite (proj1 (attempt_retry_error _ w url _ err F T L)) in Last.
      contradiction. }
  split; [exact Full|]. split.
  - rewrite (Run_sleeps _ _ _ _ _ _ R N), length_map, length_seq. lia.
  - rewrite Full in Last.
    assert (retries (configure d opts) < retries (configure d opts) + 1) as Over by lia.
    destruct (All (retries (configure d opts) + 1)) as [(res & F & O & S) | (err & F & T)];
      rewrite F.
    + rewrite (proj1 (attempt_final_status _ w url _ res F O (or_intror Over))) in Last.
      exact Last.
    + rewrite (proj1 (attempt_final_error _ w url _ err F (or_intror Over))) in Last.
      exact Last.
Qed.

Lemma retryable_failures_use_budget_up_witness :
  exists o tr,
    fetchWithRetry stockDefaults (failing connectionReset) "u" noOpts = Some (o, tr) /\
    attemptsMade tr = 3 + 1 /\ List.length (sleeps tr) = 3%nat /\ o = Raised connectionReset.
Proof.
  destruct (retryable_failures_use_budget_up stockDefaults (failing connectionReset) "u" noOpts)
    as (o & tr & E & A & S & O).
  - vm_compute. discriminate.
  - intros k. right. exists connectionReset. split; reflexivity.
  - exists o, tr. repeat split; assumption.
Defined.

(** ** Backoff *)

(** Property X6.  After a transient error with budget left the call sleeps the jittered
    backoff of the attempt, within 15% (and half a millisecond) of
    [backoffBase * 2^(k-1)], and then tries again. *)
Theorem transient_error_waits_backoff d w url opts k err :
  random_ok w ->
  fetch w url k = Rejected err -> isTransientError err = true ->
  k <= retries (configure d opts) ->
  attemptCompletion (configure d opts) w url k
  = Continue (backoffWaitMs (configure d opts) w k) /\
  20 * Z.abs (backoffWaitMs (configure d opts) w k
              - backoffBase (configure d opts) * 2 ^ (k - 1))
  <= 3 * Z.abs (backoffBase (configure d opts) * 2 ^ (k - 1)) + 10 /\
  forall o tr, fetchWithRetry d w url opts = Some (o, tr) -> In (EvFetch k) tr ->
    In (EvSleep k (backoffWaitMs (configure d opts) w k)) tr /\
    In (EvFetch (k + 1)) tr.
Proof.
  intros Rnd F T B.
  destruct (attempt_retry_error (configure d opts) w url k err F T B) as [C _].
  split; [exact C|]. split.
  - unfold backoffWaitMs. destruct (Rnd k). now apply jitter_near.
  - intros o tr E I. pose proof (fetchWithRetry_Run _ _ _ _ _ _ E) as R.
    split; [apply (Run_sleep _ _ _ _ _ _ _ R); auto|].
    destruct (Run_made_budget _ _ _ _ _ _ R I) as (N & M & _).
    destruct (Run_completions _ _ _ _ _ _ R N) as [_ Last].
    change (attempt initialState) with 0 in Last. rewrite Z.add_0_l in Last.
    apply (Run_made _ _ _ _ _ _ R).
    destruct (Z.eq_dec k (attemptsMade tr)) as [Q | Q]; [|lia].
    subst k. rewrite C in Last. contradiction.
Qed.

Lemma transient_error_waits_backoff_witness :
  attemptCompletion (configure stockDefaults noOpts) (failing aborted) "u" 2
  = Continue (backoffWaitMs (configure stockDefaults noOpts) (failing aborted) 2).
Proof.
  apply (transient_error_waits_backoff stockDefaults (failing aborted) "u" noOpts 2 aborted).
  - intros k. split; vm_compute; [discriminate | reflexivity].
  - reflexivity.
  - reflexivity.
  - vm_compute. discriminate.
Defined.

Lemma backoffWaitMs_bounds c w k :
  random_ok w -> 0 <= backoffBase c ->
  backoffBase c * 2 ^ (k - 1) <= backoffWaitMs c w k /\
  20 * backoffWaitMs c w k <= 23 * (backoffBase c * 2 ^ (k - 1)) + 10.
Proof.
  intros Rnd B. destruct (Rnd k) as [R0 R1].
  assert (0 <= backoffBase c * 2 ^ (k - 1)) as P
    by (apply Z.mul_nonneg_nonneg; [exact B | apply Z.pow_nonneg; lia]).
  unfold backoffWaitMs.
  pose proof (jitter_above _ _ R0 R1 P).
  pose proof (jitter_near (backoffBase c * 2 ^ (k - 1)) _ R0 R1).
  lia.
Qed.

(** Property X7.  With a [backoffBase] that is not negative the jitter only ever adds: the
    backoff is at least [base = backoffBase * 2^(k-1)] and at most
    [1.15 * base + 0.5]. *)
Theorem backoff_never_below_base c w k :
  random_ok w -> 0 <= backoffBase c ->
  backoffBase c * 2 ^ (k - 1) <= backoffWaitMs c w k /\
  20 * backoffWaitMs c w k <= 23 * (backoffBase c * 2 ^ (k - 1)) + 10.
Proof.
  intros Rnd B. destruct (Rnd k) as [R0 R1].
  assert (0 <= backoffBase c * 2 ^ (k - 1)) as P
    by (apply Z.mul_nonneg_nonneg; [exact B | apply Z.pow_nonneg; lia]).
  unfold backoffWaitMs.
  pose proof (jitter_above _ _ R0 R1 P) as Lo.
  pose proof (jitter_near (backoffBase c * 2 ^ (k - 1)) _ R0 R1) as Near.
  split; [exact Lo | lia].
Qed.

Lemma backoff_never_below_base_witness :
  500 * 2 ^ (3 - 1) <= backoffWaitMs (configure stockDefaults noOpts) (always 503 [] (1 # 2)) 3.
Proof.
  apply (backoff_never_below_base (configure stockDefaults noOpts) (always 503 [] (1 # 2)) 3).
  - intros k. split; vm_compute; [discriminate | reflexivity].
  - vm_compute. discriminate.
Defined.

(** Property X8.  With [backoffBase >= 1] the backoff grows from attempt to attempt
    whatever the random draws are: the jitter of at most 15% never makes up
    for the doubling of the base. *)
Theorem backoff_waits_increase c w k :
  random_ok w -> 1 <= backoffBase c -> 1 <= k ->
  backoffWaitMs c w k < backoffWaitMs c w (k + 1).
Proof.
  intros Rnd B K.
  destruct (backoffWaitMs_bounds c w k Rnd ltac:(lia)) as [_ Hi].
  destruct (backoffWaitMs_bounds c w (k + 1) Rnd ltac:(lia)) as [Lo _].
  replace (k + 1 - 1) with (Z.succ (k - 1)) in Lo by lia.
  rewrite Z.pow_succ_r in Lo by lia.
  assert (0 < 2 ^ (k - 1)) by (apply Z.pow_pos_nonneg; lia).
  nia.
Qed.

Lemma backoff_waits_increase_witness :
  backoffWaitMs (configure stockDefaults noOpts) (always 503 [] (9 # 10)) 1
  < backoffWaitMs (configure stockDefaults noOpts) (always 503 [] (9 # 10)) (1 + 1).
Proof.
  apply (backoff_waits_increase (configure stockDefaults noOpts) (always 503 [] (9 # 10)) 1).
  - intros k. split; vm_compute; [discriminate | reflexivity].
  - vm_compute. discriminate.
  - vm_compute. discriminate.
Defined.

(** ** The [Retry-After] header *)

(** The wait after a retryable status, from the header of the response. *)
Lemma status_retry_wait c w url k res :
  fetch w url k = Resolved res -> ok res = false ->
  isRetryableStatus (status res) = true -> k <= retries c ->
  attemptCompletion c w url k =
  Continue (if headerWaitMs c w k (headers_get (headers res) "retry-after") <=? 0
            then backoffWaitMs c w k
            else headerWaitMs c w k (headers_get (headers res) "retry-after")).
Proof.
  intros F O S B.
  rewrite (proj1 (attempt_retry_status c w url k res F O S B)).
  unfold retryWaitMs.
  destruct (afterSnippet_head res) as (_ & _ & _ & Hd). rewrite Hd. reflexivity.
Qed.

(** Property X9.  A [Retry-After] of more seconds than the cap is cut down to the cap:
    with [0 < maxRetryAfterSecs <= H] the wait is exactly
    [maxRetryAfterSecs * 1000] ms. *)
Theorem retry_after_above_cap_waits_cap d w url opts k res ra H :
  fetch w url k = Resolved res -> ok res = false ->
  isRetryableStatus (status res) = true ->
  k <= retries (configure d opts) ->
  headers_get (headers res) "retry-after" = Some ra ->
  parseInt ra = Some H ->
  0 < maxRetryAfterSecs (configure d opts) <= H ->
  attemptCompletion (configure d opts) w url k
  = Continue (maxRetryAfterSecs (configure d opts) * 1000) /\
  forall o tr, fetchWithRetry d w url opts = Some (o, tr) -> In (EvFetch k) tr ->
               In (EvSleep k (maxRetryAfterSecs (configure d opts) * 1000)) tr.
Proof.
  intros F O S B G P Hc.
  pose proof (status_retry_wait _ w url k res F O S B) as C.
  rewrite G, (headerWaitMs_integer _ _ _ _ _ P), Z.min_r in C by lia.
  replace (maxRetryAfterSecs (configure d opts) * 1000 <=? 0) with false in C by lia.
  split; [exact C|].
  intros o tr E I.
  apply (Run_sleep _ _ _ _ _ _ _ (fetchWithRetry_Run _ _ _ _ _ _ E)). auto.
Qed.

Lemma retry_after_above_cap_waits_cap_witness :
  attemptCompletion (configure stockDefaults noOpts) (hinted "86400") "u" 1
  = Continue (120 * 1000).
Proof.
  apply (retry_after_above_cap_waits_cap stockDefaults (hinted "86400") "u" noOpts 1
           (response 503 [("retry-after", "86400")]) "86400" 86400).
  - reflexivity.
  - reflexivity.
  - reflexivity.
  - vm_compute. discriminate.
  - reflexivity.
  - reflexivity.
  - vm_compute. split; [reflexivity | discriminate].
Defined.

(** Property X10.  The header is passed over, and the computed backoff is slept, when it
    is missing or empty, when its integer value is 0 or negative, when it
    is neither an integer nor a date, when its date is less than a second
    ahead, and always when [maxRetryAfterSecs] is not positive. *)
Theorem unusable_retry_after_waits_backoff c w url k res :
  fetch w url k = Resolved res -> ok res = false ->
  isRetryableStatus (status res) = true -> k <= retries c ->
  headers_get (headers res) "retry-after" = None \/
  headers_get (headers res) "retry-after" = Some "" \/
  (exists ra H, headers_get (headers res) "retry-after" = Some ra /\
                parseInt ra = Some H /\ H <= 0) \/
  (exists ra, headers_get (headers res) "retry-after" = Some ra /\
              parseInt ra = None /\ dateParse w ra = None) \/
  (exists ra t, headers_get (headers res) "retry-after" = Some ra /\
                parseInt ra = None /\ dateParse w ra = Some t /\
                t - dateNow w k < 1000) \/
  maxRetryAfterSecs c <= 0 ->
  attemptCompletion c w url k = Continue (backoffWaitMs c w k).
Proof.
  intros F O S B H.
  rewrite (status_retry_wait c w url k res F O S B).
  assert (headerWaitMs c w k (headers_get (headers res) "retry-after") <= 0) as Z0.
  { destruct H as [G | [G | [(ra & n & G & P & L) | [(ra & G & P & D)
                  | [(ra & t & G & P & D & L) | L]]]]].
    - rewrite G. simpl. lia.
    - rewrite G. simpl. lia.
    - rewrite G, (headerWaitMs_integer _ _ _ _ _ P). lia.
    - rewrite G. unfold headerWaitMs. destruct (truthy ra); [|lia].
      rewrite P, D. lia.
    - rewrite G. unfold headerWaitMs. destruct (truthy ra); [|lia].
      rewrite P, D.
      assert ((t - dateNow w k) / 1000 <= 0) by (apply Z.lt_succ_r, Z.div_lt_upper_bound; lia).
      lia.
    - unfold headerWaitMs.
      destruct (headers_get (headers res) "retry-after") as [ra|]; [|lia].
      destruct (truthy ra); [|lia].
      destruct (parseInt ra) as [n|]; [lia|].
      destruct (dateParse w ra) as [t|]; lia. }
  replace (headerWaitMs c w k (headers_get (headers res) "retry-after") <=? 0)
    with true by lia.
  reflexivity.
Qed.

Lemma unusable_retry_after_waits_backoff_witness :
  attemptCompletion (configure stockDefaults noOpts) (hinted "soon") "u" 1
  = Continue (backoffWaitMs (configure stockDefaults noOpts) (hinted "soon") 1).
Proof.
  apply (unusable_retry_after_waits_backoff (configure stockDefaults noOpts)
           (hinted "soon") "u" 1 (response 503 [("retry-after", "soon")])).
  - reflexivity.
  - reflexivity.
  - reflexivity.
  - vm_compute. discriminate.
  - right; right; right; left. exists "soon". repeat split.
Defined.

(** Property X11.  A [Retry-After] that carries a date at least a second ahead (and is not
    read as an integer) gives a wait of whole seconds that is positive, does
    not go past the date, and respects the cap: it is
    [min(floor((date - now) / 1000), maxRetryAfterSecs) * 1000]. *)
Theorem retry_after_date_wait c w url k res ra t :
  fetch w url k = Resolved res -> ok res = false ->
  isRetryableStatus (status res) = true -> k <= retries c ->
  headers_get (headers res) "retry-after" = Some ra ->
  ra <> "" -> parseInt ra = None -> dateParse w ra = Some t ->
  1000 <= t - dateNow w k -> 1 <= maxRetryAfterSecs c ->
  exists waitMs,
    attemptCompletion c w url k = Continue waitMs /\
    waitMs = Z.min ((t - dateNow w k) / 1000) (maxRetryAfterSecs c) * 1000 /\
    0 < waitMs <= t - dateNow w k /\
    waitMs <= maxRetryAfterSecs c * 1000 /\
    (waitMs = maxRetryAfterSecs c * 1000 \/ t - dateNow w k - 1000 < waitMs).
Proof.
  intros F O S B G NE P D Ahead Cap.
  rewrite (status_retry_wait c w url k res F O S B), G.
  assert (truthy ra = true) as T by (destruct ra; [congruence | reflexivity]).
  unfold headerWaitMs. rewrite T, P, D.
  pose proof (Z.div_mod (t - dateNow w k) 1000 ltac:(lia)) as DM.
  pose proof (Z.mod_pos_bound (t - dateNow w k) 1000 ltac:(lia)) as MB.
  set (secs := (t - dateNow w k) / 1000) in *.
  assert (1 <= secs) as S1 by lia.
  rewrite Z.max_r by lia.
  replace (Z.min secs (maxRetryAfterSecs c) * 1000 <=? 0) with false by lia.
  eexists. split; [reflexivity|]. split; [reflexivity|]. lia.
Qed.

Lemma retry_after_date_wait_witness :
  exists waitMs,
    attemptCompletion (configure stockDefaults noOpts)
      (mkWorld (fun _ _ => Resolved (response 503 [("retry-after", "Wed, 21 Oct 2026 07:28:00 GMT")]))
               (fun _ => 0%Q) (fun _ => 1000000) (fun _ => Some 1007900))
      "u" 1 = Continue waitMs /\
    waitMs = Z.min ((1007900 - 1000000) / 1000) 120 * 1000.
Proof.
  destruct (retry_after_date_wait (configure stockDefaults noOpts)
      (mkWorld (fun _ _ => Resolved (response 503 [("retry-after", "Wed, 21 Oct 2026 07:28:00 GMT")]))
               (fun _ => 0%Q) (fun _ => 1000000) (fun _ => Some 1007900))
      "u" 1 (response 503 [("retry-after", "Wed, 21 Oct 2026 07:28:00 GMT")])
      "Wed, 21 Oct 2026 07:28:00 GMT" 1007900) as (ms & C & V & _).
  - reflexivity.
  - reflexivity.
  - reflexivity.
  - vm_compute. discriminate.
  - reflexivity.
  - discriminate.
  - reflexivity.
  - reflexivity.
  - vm_compute. discriminate.
  - vm_compute. discriminate.
  - exists ms. split; [exact C | exact V].
Defined.

(** [parseInt] reads a decimal numeral back. *)
Lemma parseInt_digit_led ch rest :
  isDigit ch = true ->
  parseInt (String ch rest) = digits (String ch rest) (Some 0).
Proof.
  intros D.
  assert (parseInt (String ch rest) = digits (String ch rest) None) as P.
  { destruct ch as [[] [] [] [] [] [] [] []]; try discriminate D; reflexivity. }
  rewrite P. cbn [digits]. unfold isDigit in D.
  destruct (digitValue ch); [reflexivity | discriminate].
Qed.

Lemma digits_stop rest x :
  rest = "" \/ (exists ch r, rest = String ch r /\ isDigit ch = false) ->
  digits rest (Some x) = Some x.
Proof.
  intros [-> | (ch & r & -> & D)]; [reflexivity|].
  cbn [digits]. unfold isDigit in D.
  destruct (digitValue ch); [discriminate | reflexivity].
Qed.

Lemma digits_numeral d rest : forall a,
  digits (DecimalString.NilEmpty.string_of_uint d ++ rest) (Some (Z.of_nat a))
  = digits rest (Some (Z.of_nat (Nat.of_uint_acc d a))).
Proof.
  induction d as [|d IH|d IH|d IH|d IH|d IH|d IH|d IH|d IH|d IH|d IH]; intros a;
    [reflexivity|..];
    cbn [DecimalString.NilEmpty.string_of_uint append digits Nat.of_uint_acc];
    match goal with
    | |- context [digitValue ?ch] =>
        let v := eval vm_compute in (digitValue ch) in
        change (digitValue ch) with v
    end;
    cbv iota beta; rewrite <- IH; do 2 f_equal;
    rewrite Nat.tail_mul_spec; lia.
Qed.

Lemma string_of_uint_head d :
  d <> Decimal.Nil ->
  exists ch r, DecimalString.NilEmpty.string_of_uint d = String ch r /\ isDigit ch = true.
Proof.
  destruct d; [congruence|..]; intros _; eexists _, _; split; reflexivity.
Qed.

Lemma parseInt_numeral d rest :
  d <> Decimal.Nil ->
  rest = "" \/ (exists ch r, rest = String ch r /\ isDigit ch = false) ->
  parseInt (DecimalString.NilEmpty.string_of_uint d ++ rest)
  = Some (Z.of_nat (Nat.of_uint d)).
Proof.
  intros N Stop.
  destruct (string_of_uint_head d N) as (ch & r & E & D).
  pose proof (digits_numeral d rest 0) as Num.
  rewrite E in *. cbn [append] in *.
  rewrite (parseInt_digit_led _ _ D).
  change (Some 0) with (Some (Z.of_nat 0)).
  rewrite Num. apply digits_stop. exact Stop.
Qed.

(** Property X12.  A header value that begins with a decimal numeral is read as that
    number of seconds: the digits up to the first character that is not a
    digit give the number, whatever follows them, and what [Date.parse] would
    make of the value, and the time of day, play no role.  So an ISO date
    such as "2026-10-21T07:28:00Z" asks for 2026 seconds. *)
Theorem digit_led_retry_after_is_seconds d rest c w k :
  d <> Decimal.Nil ->
  rest = "" \/ (exists ch r, rest = String ch r /\ isDigit ch = false) ->
  parseInt (DecimalString.NilEmpty.string_of_uint d ++ rest)
  = Some (Z.of_nat (Nat.of_uint d)) /\
  headerWaitMs c w k (Some (DecimalString.NilEmpty.string_of_uint d ++ rest)%string)
  = Z.min (Z.of_nat (Nat.of_uint d)) (maxRetryAfterSecs c) * 1000.
Proof.
  intros N Stop. pose proof (parseInt_numeral d rest N Stop) as P.
  split; [exact P|]. apply headerWaitMs_integer. exact P.
Qed.

Lemma digit_led_retry_after_is_seconds_witness :
  parseInt "2026-10-21T07:28:00Z" = Some 2026 /\
  headerWaitMs (mkConfig 15000 3 500 3600)
    (mkWorld (fun _ _ => Resolved (response 503 [("retry-after", "2026-10-21T07:28:00Z")]))
             (fun _ => 0%Q) (fun _ => 1000000) (fun _ => Some 1861000000))
    1 (Some "2026-10-21T07:28:00Z")
  = 2026 * 1000.
Proof.
  exact (digit_led_retry_after_is_seconds
           (Decimal.D2 (Decimal.D0 (Decimal.D2 (Decimal.D6 Decimal.Nil))))
           "-10-21T07:28:00Z" (mkConfig 15000 3 500 3600)
           (mkWorld (fun _ _ => Resolved (response 503 [("retry-after", "2026-10-21T07:28:00Z")]))
                    (fun _ => 0%Q) (fun _ => 1000000) (fun _ => Some 1861000000))
           1
           ltac:(discriminate)
           (or_intror (ex_intro _ "-"%char (ex_intro _ "10-21T07:28:00Z" (conj eq_refl eq_refl))))).
Defined.

(** ** The body of a response *)

Lemma substring_prefix s : forall n,
  String.length (substring 0 n s) = Nat.min n (String.length s) /\
  prefix (substring 0 n s) s = true.
Proof.
  induction s as [|ch s IH]; intros n.
  - destruct n; split; reflexivity.
  - destruct n as [|n]; [split; reflexivity|].
    simpl. destruct (IH n) as [L P]. rewrite L, P.
    split; [reflexivity|].
    destruct (ascii_dec ch ch); [reflexivity | congruence].
Qed.

(** The snippets in the events of attempt [k]. *)
Lemma attempt_snippet c w url k j snippet :
  In (EvSnippet j snippet) (attemptEvents c w url k) <->
  j = k /\ exists res, fetch w url k = Resolved res /\ ok res = false /\
                     snippet = fst (readResponseSnippet res 1500).
Proof.
  destruct (fetch w url k) as [res | err] eqn:F.
  - destruct (ok res) eqn:O.
    + rewrite (proj2 (attempt_ok c w url k res F O)). simpl. split.
      * intros [H | []]. discriminate.
      * intros (_ & res' & F' & O' & _). inversion F'; subst. congruence.
    + assert (In (EvSnippet j snippet) (attemptEvents c w url k) <->
              EvSnippet k (fst (readResponseSnippet res 1500)) = EvSnippet j snippet) as I.
      { destruct (isRetryableStatus (status res)) eqn:S.
        - destruct (Z_le_gt_dec k (retries c)) as [B | B].
          + rewrite (proj2 (attempt_retry_status c w url k res F O S B)). simpl.
            intuition discriminate.
          + assert (retries c < k) as B' by lia.
            rewrite (proj2 (attempt_final_status c w url k res F O (or_intror B'))). simpl.
            intuition discriminate.
        - rewrite (proj2 (attempt_final_status c w url k res F O (or_introl S))). simpl.
          intuition discriminate. }
      rewrite I. split.
      * intros H. inversion H; subst. split; [reflexivity|]. eauto.
      * intros (-> & res' & F' & _ & ->). inversion F'; subst. reflexivity.
  - split.
    + intros I. exfalso.
      destruct (isTransientError err) eqn:T.
      * destruct (Z_le_gt_dec k (retries c)) as [B | B].
        -- rewrite (proj2 (attempt_retry_error c w url k err F T B)) in I. simpl in I.
           intuition discriminate.
        -- assert (retries c < k) as B' by lia.
           rewrite (proj2 (attempt_final_error c w url k err F (or_intror B'))) in I.
           simpl in I. intuition discriminate.
      * rewrite (proj2 (attempt_final_error c w url k err F (or_introl T))) in I.
        simpl in I. intuition discriminate.
    + intros (_ & res' & F' & _). discriminate.
Qed.

(** Property X13.  [fetchWithRetry] takes a body snippet in exactly those attempts of a
    call whose response completed with [ok] false, the last one included.
    For a body that is unread and can be read the snippet is the first 1500
    characters of its text: a prefix of the text, of length
    [min(1500, length)]; for a [null] body it is empty. *)
Theorem logged_snippet_is_bounded_prefix d w url opts :
  exists o tr, fetchWithRetry d w url opts = Some (o, tr) /\
    (forall k snippet,
       In (EvSnippet k snippet) tr <->
       In (EvFetch k) tr /\
       exists res, fetch w url k = Resolved res /\ ok res = false /\
                   snippet = fst (readResponseSnippet res 1500)) /\
    (forall k snippet res,
       In (EvSnippet k snippet) tr -> fetch w url k = Resolved res ->
       (forall b t, body res = Some b -> bodyUsed b = false -> payload b = inl t ->
          snippet = substring 0 1500 t /\
          String.length snippet = Nat.min 1500 (String.length t) /\
          prefix snippet t = true) /\
       (body res = None -> snippet = "")).
Proof.
  destruct (fetchWithRetry_total d w url opts) as (o & tr & E).
  pose proof (fetchWithRetry_Run _ _ _ _ _ _ E) as R.
  exists o, tr. split; [exact E|].
  assert (forall k snippet,
            In (EvSnippet k snippet) tr <->
            In (EvFetch k) tr /\
            exists res, fetch w url k = Resolved res /\ ok res = false /\
                        snippet = fst (readResponseSnippet res 1500)) as Iff.
  { intros k sn.
    rewrite (Run_events _ _ _ _ _ _ R), (Run_made _ _ _ _ _ _ R). simpl.
    rewrite attempt_snippet. intuition lia. }
  split; [exact Iff|].
  intros k sn res I F.
  apply Iff in I. destruct I as (_ & res' & F' & _ & ->).
  rewrite F in F'. inversion F'; subst res'. split.
  - intros b t Bd U P. unfold readResponseSnippet, text, slice0.
    rewrite Bd, U, P. cbn [fst].
    destruct (substring_prefix t 1500) as [L Pre]. auto.
  - intros Bd. unfold readResponseSnippet. rewrite (text_of_null_body _ Bd).
    reflexivity.
Qed.

Lemma logged_snippet_is_bounded_prefix_witness :
  exists o tr,
    fetchWithRetry stockDefaults (always 404 [] 0) "u" noOpts = Some (o, tr) /\
    In (EvSnippet 1 "payload") tr.
Proof.
  destruct (logged_snippet_is_bounded_prefix stockDefaults (always 404 [] 0) "u" noOpts)
    as (o & tr & E & Iff & _).
  exists o, tr. split; [exact E|].
  apply Iff. split.
  - vm_compute in E. inversion E. simpl. auto.
  - exists (response 404 []). repeat split.
Defined.

(** How a returned response came about. *)
Lemma returned_response_origin d w url opts res tr :
  fetchWithRetry d w url opts = Some (Returned res, tr) ->
  exists res0, fetch w url (attemptsMade tr) = Resolved res0 /\
    ((ok res0 = true /\ res = res0 /\
      attemptEvents (configure d opts) w url (attemptsMade tr) = [EvFetch (attemptsMade tr)]) \/
     (ok res0 = false /\ res = afterSnippet res0)).
Proof.
  intros E. pose proof (fetchWithRetry_Run _ _ _ _ _ _ E) as R.
  destruct (Z_lt_le_dec (retries (configure d opts)) 0) as [N | N].
  { destruct (Run_nothing _ _ _ _ _ R N) as [_ C]. discriminate. }
  destruct (Run_completions _ _ _ _ _ _ R N) as [_ Last].
  change (attempt initialState) with 0 in Last. rewrite Z.add_0_l in Last.
  pose proof (attempt_inv (configure d opts) w url (attemptsMade tr)) as Inv.
  destruct (attemptCompletion (configure d opts) w url (attemptsMade tr))
    as [ms | res' | err]; [contradiction | | discriminate].
  inversion Last; subst res'.
  destruct Inv as (res0 & F & [[O Q] | (O & Q & _)]); exists res0; split; auto.
  left. subst res0. repeat split; auto.
  apply (attempt_ok (configure d opts) w url _ res F O).
Qed.

(** Property X14.  A response with [ok] true is handed to the caller as [fetch] delivered
    it: nothing was read from its body (no snippet was taken in that
    attempt), so that the caller's [text()] gets the payload, or the empty
    text when the body is [null]. *)
Theorem ok_response_returned_unread d w url opts :
  exists o tr, fetchWithRetry d w url opts = Some (o, tr) /\
    forall res, o = Returned res -> ok res = true ->
      fetch w url (attemptsMade tr) = Resolved res /\
      (forall snippet, ~ In (EvSnippet (attemptsMade tr) snippet) tr) /\
      (forall b, body res = Some b -> bodyUsed b = false ->
                 fst (text res) = payload b) /\
      (body res = None -> fst (text res) = inl "").
Proof.
  destruct (fetchWithRetry_total d w url opts) as (o & tr & E).
  exists o, tr. split; [exact E|].
  intros res O K. subst o.
  destruct (returned_response_origin _ _ _ _ _ _ E)
    as (res0 & F & [(O0 & Q & Ev) | (O0 & Q)]).
  - subst res0. split; [exact F|]. split; [|split].
    + intros sn I.
      apply (Run_events _ _ _ _ _ _ (fetchWithRetry_Run _ _ _ _ _ _ E)) in I.
      simpl in I. destruct I as [_ I]. rewrite Ev in I.
      destruct I as [I | []]. discriminate.
    + intros b Bd U. unfold text. rewrite Bd, U. reflexivity.
    + intros Bd. rewrite (text_of_null_body _ Bd). reflexivity.
  - subst res. destruct (afterSnippet_head res0) as (Ok & _). congruence.
Qed.

Lemma ok_response_returned_unread_witness :
  exists tr,
    fetchWithRetry stockDefaults (recovering 1 503) "u" noOpts
    = Some (Returned (response 200 []), tr) /\
    fst (text (response 200 [])) = inl "payload".
Proof.
  destruct (ok_response_returned_unread stockDefaults (recovering 1 503) "u" noOpts)
    as (o & tr & E & H).
  assert (o = Returned (response 200 [])) as O
    by (vm_compute in E; inversion E; reflexivity).
  destruct (H _ O eq_refl) as (_ & _ & T & _).
  exists tr. rewrite <- O. split; [exact E|].
  exact (T (mkBody false (inl "payload")) eq_refl eq_refl).
Defined.

(** Property X15.  What [safeText] of the metrics probe makes of a response that
    [fetchWithRetry] returned.  With [ok] false and a body that is not
    [null] it is always the placeholder "<failed-to-read-body>", because the
    body went into the log of [fetchWithRetry]; with [ok] false and a [null]
    body it is the empty text.  With [ok] true (a reply that fails one of
    the probe's checks [status !== 201] or [status !== 204]) the body comes
    unread, and [safeText] gives its text when it can be read. *)
Theorem safeText_after_fetchWithRetry d w url opts :
  exists o tr, fetchWithRetry d w url opts = Some (o, tr) /\
    forall res, o = Returned res ->
      (ok res = false ->
       (forall b, body res = Some b -> fst (safeText res) = "<failed-to-read-body>") /\
       (body res = None -> fst (safeText res) = "")) /\
      (ok res = true ->
       (forall b t, body res = Some b -> bodyUsed b = false -> payload b = inl t ->
                    fst (safeText res) = t) /\
       (body res = None -> fst (safeText res) = "")).
Proof.
  destruct (fetchWithRetry_total d w url opts) as (o & tr & E).
  exists o, tr. split; [exact E|].
  intros res O. subst o.
  assert (body res = None -> fst (safeText res) = "") as Null.
  { intros Bd. unfold safeText. rewrite (text_of_null_body _ Bd). reflexivity. }
  destruct (returned_response_origin _ _ _ _ _ _ E)
    as (res0 & F & [(O0 & Q & _) | (O0 & Q)]).
  - subst res0. split; [congruence|]. intros _. split; [|exact Null].
    intros b t Bd U P. unfold safeText, text. rewrite Bd, U, P. reflexivity.
  - split.
    + intros _. split; [|exact Null].
      intros b Bd. unfold safeText, text. rewrite Bd.
      subst res. rewrite (afterSnippet_bodyUsed _ _ Bd). reflexivity.
    + subst res. destruct (afterSnippet_head res0) as (Ok & _). congruence.
Qed.

Lemma safeText_after_fetchWithRetry_witness :
  (exists tr,
     fetchWithRetry stockDefaults (always 404 [] 0) "u" noOpts
     = Some (Returned (afterSnippet (response 404 [])), tr)) /\
  fst (safeText (afterSnippet (response 404 []))) = "<failed-to-read-body>" /\
  (exists tr,
     fetchWithRetry stockDefaults (always 200 [] 0) "u" noOpts
     = Some (Returned (response 200 []), tr)) /\
  fst (safeText (response 200 [])) = "payload".
Proof.
  destruct (safeText_after_fetchWithRetry stockDefaults (always 404 [] 0) "u" noOpts)
    as (o & tr & E & H).
  destruct (safeText_after_fetchWithRetry stockDefaults (always 200 [] 0) "u" noOpts)
    as (o' & tr' & E' & H').
  assert (o = Returned (afterSnippet (response 404 []))) as O
    by (vm_compute in E; inversion E; reflexivity).
  assert (o' = Returned (response 200 [])) as O'
    by (vm_compute in E'; inversion E'; reflexivity).
  destruct (H _ O) as [Fail _]. destruct (Fail eq_refl) as [Used _].
  destruct (H' _ O') as [_ Good]. destruct (Good eq_refl) as [Read _].
  split; [exists tr; rewrite <- O; exact E|].
  split; [exact (Used (mkBody true (inl "payload")) eq_refl)|].
  split; [exists tr'; rewrite <- O'; exact E'|].
  exact (Read (mkBody false (inl "payload")) "payload" eq_refl eq_refl eq_refl).
Defined.

(** ** The options passed to [fetch] *)

Lemma getProp_deleteProp obj key key' :
  getProp (deleteProp obj key) key' =
  if String.eqb key key' then VUndefined else getProp obj key'.
Proof.
  induction obj as [|[k v] obj IH]; simpl.
  - destruct (String.eqb key key'); reflexivity.
  - destruct (String.eqb_spec k key) as [-> | N].
    + rewrite IH. destruct (String.eqb key key'); reflexivity.
    + simpl. rewrite IH.
      destruct (String.eqb_spec k key') as [-> | N'];
        destruct (String.eqb_spec key key') as [-> | N'']; congruence.
Qed.

Lemma getProp_setProp obj key v key' :
  getProp (setProp obj key v) key' =
  if String.eqb key key' then v else getProp obj key'.
Proof.
  induction obj as [|[k v'] obj IH]; simpl.
  - reflexivity.
  - destruct (String.eqb_spec k key) as [-> | N]; simpl.
    + destruct (String.eqb key key'); reflexivity.
    + rewrite IH.
      destruct (String.eqb_spec k key') as [-> | N'];
        destruct (String.eqb_spec key key') as [-> | N'']; congruence.
Qed.

Lemma getProp_armSignal fo k key :
  key <> "signal" -> getProp (armSignal fo k) key = getProp fo key.
Proof.
  intros N. unfold armSignal.
  destruct (valueTruthy (getProp fo "signal")); [reflexivity|].
  rewrite getProp_setProp.
  destruct (String.eqb_spec "signal" key); congruence.
Qed.

Lemma getProp_releaseSignal fo k key :
  key <> "signal" -> getProp (releaseSignal fo k) key = getProp fo key.
Proof.
  intros N. unfold releaseSignal.
  destruct (isAttemptSignal (getProp fo "signal") k); [|reflexivity].
  rewrite getProp_deleteProp.
  destruct (String.eqb_spec "signal" key); congruence.
Qed.

Lemma getProp_fetchOptionsAfter opts n key :
  key <> "signal" ->
  getProp (fetchOptionsAfter opts n) key = getProp (fetchOptionsOf opts) key.
Proof.
  intros N. induction n as [|n IH]; [reflexivity|].
  cbn [fetchOptionsAfter].
  now rewrite getProp_releaseSignal, getProp_armSignal.
Qed.

(** Property X16.  The options [fetch] gets in an attempt are the caller's, without
    [timeoutMs], [retries] and [backoffBase]: these three are never passed
    on, every other option apart from [signal] is passed on as it is, in
    every attempt. *)
Theorem own_options_are_not_passed_on opts m key :
  key <> "signal" ->
  getProp (fetchOptionsIn opts m) key =
  if String.eqb key "timeoutMs" || String.eqb key "retries" || String.eqb key "backoffBase"
  then VUndefined
  else getProp opts key.
Proof.
  intros N. unfold fetchOptionsIn.
  rewrite getProp_armSignal, getProp_fetchOptionsAfter by exact N.
  unfold fetchOptionsOf. rewrite !getProp_deleteProp.
  rewrite (String.eqb_sym key "timeoutMs"), (String.eqb_sym key "retries"),
    (String.eqb_sym key "backoffBase").
  destruct (String.eqb "backoffBase" key), (String.eqb "retries" key),
    (String.eqb "timeoutMs" key); reflexivity.
Qed.

Lemma own_options_are_not_passed_on_witness :
  getProp (fetchOptionsIn [("method", VString "PATCH"); ("retries", VNumber 3)] 2) "method"
  = VString "PATCH".
Proof.
  apply (own_options_are_not_passed_on
           [("method", VString "PATCH"); ("retries", VNumber 3)] 2 "method").
  discriminate.
Defined.

Lemma signal_after_attempts opts n :
  (forall k, isAttemptSignal (getProp opts "signal") k = false) ->
  getProp (fetchOptionsAfter opts n) "signal" =
  if valueTruthy (getProp opts "signal") then getProp opts "signal"
  else match n with O => getProp opts "signal" | S _ => VUndefined end.
Proof.
  intros Caller. induction n as [|n IH].
  - cbn [fetchOptionsAfter]. unfold fetchOptionsOf. rewrite !getProp_deleteProp.
    simpl. destruct (valueTruthy (getProp opts "signal")); reflexivity.
  - cbn [fetchOptionsAfter]. unfold armSignal, releaseSignal.
    destruct (valueTruthy (getProp opts "signal")) eqn:T.
    + rewrite IH, T, IH, Caller. exact IH.
    + assert (valueTruthy (getProp (fetchOptionsAfter opts n) "signal") = false) as F.
      { rewrite IH. destruct n; [exact T | reflexivity]. }
      rewrite F, getProp_setProp, String.eqb_refl.
      cbn [isAttemptSignal]. rewrite Z.eqb_refl, getProp_deleteProp, String.eqb_refl.
      reflexivity.
Qed.

(** Property X17.  A signal of the caller is what [fetch] gets in every attempt; the
    signal of the controller that the per-attempt timer aborts is then never
    installed, so that the timeout cannot cancel the request.  Without a
    signal of the caller each attempt runs under the signal of its own
    controller. *)
Theorem caller_signal_replaces_timeout_signal opts m :
  (forall k, isAttemptSignal (getProp opts "signal") k = false) ->
  getProp (fetchOptionsIn opts m) "signal" =
  if valueTruthy (getProp opts "signal") then getProp opts "signal"
  else VSignal (AttemptSignal (Z.of_nat (S m))).
Proof.
  intros Caller. unfold fetchOptionsIn, armSignal.
  pose proof (signal_after_attempts opts m Caller) as A.
  destruct (valueTruthy (getProp opts "signal")) eqn:T.
  - rewrite A, T. exact A.
  - assert (valueTruthy (getProp (fetchOptionsAfter opts m) "signal") = false) as F.
    { rewrite A. destruct m; [exact T | reflexivity]. }
    rewrite F, getProp_setProp, String.eqb_refl. reflexivity.
Qed.

Lemma caller_signal_replaces_timeout_signal_witness :
  getProp (fetchOptionsIn [("method", VString "GET"); ("signal", VSignal (CallerSignal 1))] 3)
          "signal"
  = VSignal (CallerSignal 1).
Proof.
  apply (caller_signal_replaces_timeout_signal
           [("method", VString "GET"); ("signal", VSignal (CallerSignal 1))] 3).
  intros k. reflexivity.
Defined.

(** ** [paginateUrl] *)

Lemma append_assoc_string (a b c : string) :
  ((a ++ b) ++ c = a ++ (b ++ c))%string.
Proof. induction a as [|ch a IH]; simpl; [reflexivity | now rewrite IH]. Qed.

Lemma append_inj_left (p a b : string) :
  (p ++ a = p ++ b)%string -> a = b.
Proof.
  induction p as [|ch p IH]; simpl; intros H; [exact H|].
  inversion H. auto.
Qed.

Lemma replaceVersion_eq s repl :
  replaceVersion s repl =
  match matchVersion s with
  | Some rest => (repl ++ rest)%string
  | None =>
      match s with
      | String ch t => String ch (replaceVersion t repl)
      | EmptyString => EmptyString
      end
  end.
Proof. destruct s; reflexivity. Qed.

Lemma matchVersion_head s rest :
  matchVersion s = Some rest -> exists t, s = String "/" t.
Proof.
  destruct s as [|a [|b [|c t]]]; simpl; try discriminate.
  destruct (Ascii.eqb_spec a "/") as [-> | N]; simpl; [eauto | discriminate].
Qed.

Lemma skipDigits_split s :
  exists ds, allDigits ds = true /\ s = (ds ++ skipDigits s)%string.
Proof.
  induction s as [|ch s (ds & D & E)].
  - exists "". split; reflexivity.
  - simpl. destruct (isDigit ch) eqn:C.
    + exists (String ch ds). simpl. rewrite C, D. split; [reflexivity|]. now f_equal.
    + exists "". split; reflexivity.
Qed.

Lemma isDigit_slash : isDigit "/" = false.
Proof. reflexivity. Qed.

Lemma skipDigits_digits ds rest :
  allDigits ds = true -> skipDigits (ds ++ String "/" rest) = String "/" rest.
Proof.
  induction ds as [|ch ds IH]; simpl; intros D; [reflexivity|].
  apply andb_true_iff in D. destruct D as [C D]. rewrite C. auto.
Qed.

(** What the regular expression matches at the head of a string: "/v1/", or
    "/v1." followed by one or more digits and a slash. *)
Lemma matchVersion_shape s rest :
  matchVersion s = Some rest ->
  exists m, s = (m ++ rest)%string /\
    (m = "/v1/" \/
     exists ds, allDigits ds = true /\ ds <> "" /\ m = ("/v1." ++ ds ++ "/")%string).
Proof.
  destruct s as [|a [|b [|c t]]]; simpl; try discriminate.
  destruct (Ascii.eqb_spec a "/") as [-> | N]; simpl; [|discriminate].
  destruct (Ascii.eqb_spec b "v") as [-> | N]; simpl; [|discriminate].
  destruct (Ascii.eqb_spec c "1") as [-> | N]; simpl; [|discriminate].
  destruct t as [|e t1]; simpl; [discriminate|].
  destruct (Ascii.eqb_spec e "/") as [-> | N1].
  - intros H. inversion H; subst. exists "/v1/". split; [reflexivity | left; reflexivity].
  - destruct (Ascii.eqb_spec e ".") as [-> | N2]; [|discriminate].
    destruct t1 as [|d t2]; [discriminate|].
    destruct (isDigit d) eqn:D; [|discriminate].
    destruct (skipDigits_split t2) as (ds & A & E).
    destruct (skipDigits t2) as [|f t3]; [discriminate|].
    destruct (Ascii.eqb_spec f "/") as [-> | N3]; [|discriminate].
    intros H. inversion H; subst rest.
    exists ("/v1." ++ String d ds ++ "/")%string. split.
    + simpl. do 5 f_equal. rewrite E at 1. rewrite append_assoc_string. reflexivity.
    + right. exists (String d ds). simpl. rewrite D, A.
      repeat split. discriminate.
Qed.

Lemma matchVersion_digits ds rest :
  allDigits ds = true -> ds <> "" ->
  matchVersion ("/v1." ++ ds ++ "/" ++ rest) = Some rest.
Proof.
  intros A N. destruct ds as [|d ds]; [congruence|].
  simpl in A. apply andb_true_iff in A. destruct A as [D A].
  simpl. rewrite D.
  change (String "/" rest) with (String "/" rest) .
  rewrite (skipDigits_digits ds rest A). reflexivity.
Qed.

Lemma string_of_uint_digits d :
  allDigits (DecimalString.NilEmpty.string_of_uint d) = true.
Proof. induction d; simpl; auto. Qed.

Lemma numberToString_digits n :
  allDigits (numberToString n) = true /\ numberToString n <> "".
Proof.
  unfold numberToString. split; [apply string_of_uint_digits|].
  assert (Nat.to_uint n = Decimal.unorm (Nat.to_uint n)) as U.
  { rewrite <- (DecimalNat.Unsigned.of_to n) at 1.
    apply DecimalNat.Unsigned.to_of. }
  rewrite U. unfold Decimal.unorm.
  destruct (Decimal.nzhead (Nat.to_uint n)); discriminate.
Qed.

Lemma numberToString_inj n m : numberToString n = numberToString m -> n = m.
Proof.
  unfold numberToString. intros H.
  apply DecimalNat.Unsigned.to_uint_inj.
  pose proof (DecimalString.NilEmpty.usu (Nat.to_uint n)) as A.
  pose proof (DecimalString.NilEmpty.usu (Nat.to_uint m)) as B.
  rewrite H in A. congruence.
Qed.

Lemma matchVersion_segment n rest :
  matchVersion (versionSegment n ++ rest) = Some rest.
Proof.
  destruct (numberToString_digits n) as [A N].
  unfold versionSegment. rewrite !append_assoc_string.
  now apply matchVersion_digits.
Qed.

Lemma replaceVersion_free url repl :
  versionFree url = true -> replaceVersion url repl = url.
Proof.
  induction url as [|ch url IH]; [reflexivity|].
  intros F. rewrite replaceVersion_eq.
  cbn [versionFree] in F.
  destruct (matchVersion (String ch url)); [discriminate|].
  f_equal. auto.
Qed.

(** Property X18.  A URL without a version segment ("/v1/" or "/v1.<digits>/") comes back
    from [paginateUrl] unchanged, and still uses up a sequence number. *)
Theorem paginateUrl_without_version url n :
  versionFree url = true -> paginateUrl url n = (url, S n).
Proof.
  intros F. unfold paginateUrl. now rewrite replaceVersion_free.
Qed.

Lemma paginateUrl_without_version_witness :
  paginateUrl "?action=&subaction=viewListById&playlist=7" 4
  = ("?action=&subaction=viewListById&playlist=7", 5%nat).
Proof.
  apply (paginateUrl_without_version "?action=&subaction=viewListById&playlist=7" 4).
  reflexivity.
Defined.

Lemma replaceVersion_first url :
  versionFree url = false ->
  exists pre tail rest,
    url = (pre ++ tail)%string /\ matchVersion tail = Some rest /\
    (forall p q, pre = (p ++ q)%string -> q <> "" ->
                 matchVersion (q ++ tail) = None) /\
    forall repl, replaceVersion url repl = (pre ++ repl ++ rest)%string.
Proof.
  induction url as [|ch url IH]; [discriminate|].
  intros F. cbn [versionFree] in F.
  destruct (matchVersion (String ch url)) as [rest|] eqn:M.
  - exists "", (String ch url), rest. repeat split; auto.
    + intros p q E N. destruct p; [|discriminate]. simpl in E. congruence.
    + intros repl. rewrite replaceVersion_eq, M. reflexivity.
  - destruct (IH F) as (pre & tail & rest & E & T & First & Rep).
    exists (String ch pre), tail, rest. repeat split; auto.
    + simpl. now f_equal.
    + intros p q Eq N. destruct p as [|a p]; simpl in Eq.
      * subst q. simpl. rewrite <- E. exact M.
      * inversion Eq; subst. eauto.
    + intros repl. rewrite replaceVersion_eq, M, Rep. reflexivity.
Qed.

(** Property X19.  [paginateUrl] rewrites the leftmost version segment of the URL, and
    nothing else: the URL is [pre ++ m ++ rest] with [m] either "/v1/" or
    "/v1.<digits>/" and no match of the pattern beginning inside [pre], and
    the result is [pre ++ "/v1.<paginateSeq>/" ++ rest]. *)
Theorem paginateUrl_replaces_first_version url n :
  versionFree url = false ->
  exists pre m rest,
    url = (pre ++ m ++ rest)%string /\
    (m = "/v1/" \/
     exists ds, allDigits ds = true /\ ds <> "" /\ m = ("/v1." ++ ds ++ "/")%string) /\
    (forall p q, pre = (p ++ q)%string -> q <> "" ->
                 matchVersion (q ++ m ++ rest) = None) /\
    paginateUrl url n = ((pre ++ versionSegment n ++ rest)%string, S n).
Proof.
  intros F.
  destruct (replaceVersion_first url F) as (pre & tail & rest & E & T & First & Rep).
  destruct (matchVersion_shape _ _ T) as (m & Et & Shape).
  exists pre, m, rest. subst tail. repeat split; auto.
  unfold paginateUrl. now rewrite Rep.
Qed.

Lemma paginateUrl_replaces_first_version_witness :
  exists pre m rest,
    "api/v1.4/playlist/7/v1/x" = (pre ++ m ++ rest)%string /\
    paginateUrl "api/v1.4/playlist/7/v1/x" 12
    = ((pre ++ versionSegment 12 ++ rest)%string, 13%nat).
Proof.
  destruct (paginateUrl_replaces_first_version "api/v1.4/playlist/7/v1/x" 12 eq_refl)
    as (pre & m & rest & E & _ & _ & P).
  exists pre, m, rest. split; [exact E | exact P].
Defined.

Example paginateUrl_on_a_playlist :
  paginateUrl "api/v1/playlist/7" 3 = ("api/v1.3/playlist/7", 4%nat) /\
  paginateUrl "api/v1.3/playlist/7" 10 = ("api/v1.10/playlist/7", 11%nat).
Proof. split; reflexivity. Qed.

Lemma digits_before_slash a b r r' :
  allDigits a = true -> allDigits b = true ->
  (a ++ String "/" r = b ++ String "/" r')%string -> a = b.
Proof.
  revert b. induction a as [|x a IH]; intros [|y b] A B E; simpl in *.
  - reflexivity.
  - inversion E; subst. rewrite isDigit_slash in B. discriminate.
  - inversion E; subst. rewrite isDigit_slash in A. discriminate.
  - inversion E; subst. f_equal.
    apply andb_true_iff in A. apply andb_true_iff in B.
    apply (IH b); tauto.
Qed.

(** Property X20.  Different sequence numbers give different URLs, whenever the URL has a
    version segment to rewrite. *)
Theorem paginateUrl_distinct url n m :
  versionFree url = false -> n <> m ->
  fst (paginateUrl url n) <> fst (paginateUrl url m).
Proof.
  intros F N E.
  destruct (replaceVersion_first url F) as (pre & tail & rest & _ & _ & _ & Rep).
  unfold paginateUrl in E. simpl in E. rewrite !Rep in E.
  apply append_inj_left in E. unfold versionSegment in E.
  rewrite !append_assoc_string in E. simpl in E.
  inversion E as [E'].
  destruct (numberToString_digits n) as [Dn _].
  destruct (numberToString_digits m) as [Dm _].
  apply digits_before_slash in E'; auto.
  apply N, numberToString_inj, E'.
Qed.

Lemma paginateUrl_distinct_witness :
  fst (paginateUrl "api/v1/playlist/7" 1) <> fst (paginateUrl "api/v1/playlist/7" 2).
Proof.
  apply (paginateUrl_distinct "api/v1/playlist/7" 1 2).
  - reflexivity.
  - discriminate.
Defined.

Lemma skipDigits_app q x :
  skipDigits (q ++ String "/" x) =
  if allDigits q then String "/" x else (skipDigits q ++ String "/" x)%string.
Proof.
  induction q as [|ch q IH]; simpl; [reflexivity|].
  destruct (isDigit ch); simpl; [exact IH | reflexivity].
Qed.

Lemma skipDigits_stops q :
  allDigits q = false -> exists f z, skipDigits q = String f z.
Proof.
  induction q as [|ch q IH]; simpl; [discriminate|].
  destruct (isDigit ch); simpl; eauto.
Qed.

Lemma skipDigits_slash_indep q x y :
  (exists r, skipDigits (q ++ String "/" x) = String "/" r) ->
  exists r, skipDigits (q ++ String "/" y) = String "/" r.
Proof.
  rewrite !skipDigits_app. destruct (allDigits q) eqn:A; [eauto|].
  destruct (skipDigits_stops q A) as (f & z & E). rewrite E. simpl.
  intros [r H]. inversion H; subst. eauto.
Qed.

Lemma versionTail_indep q x y :
  (exists r, versionTail (q ++ String "/" x) = Some r) ->
  exists r, versionTail (q ++ String "/" y) = Some r.
Proof.
  destruct q as [|e q]; simpl; [eauto|].
  destruct (Ascii.eqb e "/"); [eauto|].
  destruct (Ascii.eqb e "."); [|intros [r H]; discriminate].
  destruct q as [|d q]; simpl.
  - intros [r H]; discriminate.
  - destruct (isDigit d); [|intros [r H]; discriminate].
    intros [r H].
    destruct (skipDigits (q ++ String "/" x)) as [|f t] eqn:S; [discriminate|].
    destruct (Ascii.eqb_spec f "/") as [-> | N]; [|discriminate].
    destruct (skipDigits_slash_indep q x y (ex_intro _ t S)) as [r' S'].
    rewrite S'. simpl. eauto.
Qed.

(** Whether the pattern matches at the head of [q ++ "/" ++ x], for a [q]
    that is not empty, does not depend on [x]: a match ends with the first
    slash after its first character. *)
Lemma matchVersion_indep q x y :
  q <> "" ->
  (exists r, matchVersion (q ++ String "/" x) = Some r) ->
  exists r, matchVersion (q ++ String "/" y) = Some r.
Proof.
  intros N. destruct q as [|a q]; [congruence|].
  destruct q as [|b q].
  - simpl. destruct x as [|c x]; simpl; intros [r H]; [discriminate|].
    rewrite andb_false_r in H. discriminate.
  - destruct q as [|c q].
    + simpl. rewrite andb_false_r. intros [r H]; discriminate.
    + simpl.
      destruct (Ascii.eqb a "/" && Ascii.eqb b "v" && Ascii.eqb c "1");
        [apply versionTail_indep | intros [r H]; discriminate].
Qed.

Lemma replaceVersion_first_slash t r' :
  replaceVersion t (String "/" r') = t \/
  exists p x y, t = (p ++ String "/" x)%string /\
                replaceVersion t (String "/" r') = (p ++ String "/" y)%string.
Proof.
  induction t as [|ch t IH]; [left; reflexivity|].
  rewrite replaceVersion_eq.
  destruct (matchVersion (String ch t)) as [rest|] eqn:M.
  - right. destruct (matchVersion_head _ _ M) as [t' E].
    injection E as Hc Ht. subst ch.
    exists "", t, (r' ++ rest)%string. split; reflexivity.
  - destruct (Ascii.eqb_spec ch "/") as [-> | N].
    + right. exists "", t, (replaceVersion t (String "/" r')). split; reflexivity.
    + destruct IH as [IH | (p & x & y & E & R)].
      * left. now rewrite IH.
      * right. exists (String ch p), x, y. simpl. rewrite R, <- E. auto.
Qed.

Lemma matchVersion_after_replace ch t r' :
  matchVersion (String ch t) = None ->
  matchVersion (String ch (replaceVersion t (String "/" r'))) = None.
Proof.
  intros M.
  destruct (replaceVersion_first_slash t r') as [E | (p & x & y & E & R)].
  - now rewrite E.
  - rewrite R.
    destruct (matchVersion (String ch (p ++ String "/" y))) as [r|] eqn:M'; [|reflexivity].
    destruct (matchVersion_indep (String ch p) y x ltac:(discriminate)
                (ex_intro _ r M')) as [r0 H].
    change (String ch p ++ String "/" x)%string
      with (String ch (p ++ String "/" x)) in H.
    rewrite <- E in H. congruence.
Qed.

(** Property X21.  Paginating a URL that was paginated before replaces the old sequence
    number by the new one; the numbers do not pile up, and the result is
    what the new number gives on the original URL. *)
Theorem paginateUrl_again url n m :
  fst (paginateUrl (fst (paginateUrl url n)) m) = fst (paginateUrl url m).
Proof.
  unfold paginateUrl. cbn [fst].
  induction url as [|ch url IH]; [reflexivity|].
  rewrite (replaceVersion_eq (String ch url) (versionSegment n)),
    (replaceVersion_eq (String ch url) (versionSegment m)).
  destruct (matchVersion (String ch url)) as [rest|] eqn:M.
  - rewrite replaceVersion_eq, matchVersion_segment. reflexivity.
  - rewrite replaceVersion_eq.
    change (versionSegment n) with (String "/" ("v1." ++ numberToString n ++ "/")).
    rewrite (matchVersion_after_replace ch url _ M).
    f_equal. exact IH.
Qed.

Example paginateUrl_twice :
  fst (paginateUrl (fst (paginateUrl "api/v1/playlist/7" 1)) 2) = "api/v1.2/playlist/7".
Proof. reflexivity. Qed.

(** Property X22.  In [uptime.js] a playlist that was found by its name has [list] set to
    an absolute URL, and the events requests prepend [BASE_URL] once more:
    the URL they go to begins with [BASE_URL] twice. *)
Theorem uptime_found_list_doubles_base_url pid n :
  Uptime.eventsUrl (Uptime.foundList pid) n =
  ((Uptime.BASE_URL ++ Uptime.BASE_URL ++ "api" ++ versionSegment n ++ "playlist/" ++ pid ++ "/events")%string,
   S n).
Proof.
  unfold Uptime.eventsUrl, paginateUrl, Uptime.foundList. f_equal.
  f_equal.
  assert (forall repl,
            replaceVersion (Uptime.BASE_URL ++ "api/v1/playlist/" ++ pid) repl
            = (Uptime.BASE_URL ++ "api" ++ repl ++ "playlist/" ++ pid)%string) as R
    by (intros repl; reflexivity).
  rewrite R, !append_assoc_string. reflexivity.
Qed.

(** * The probe of [monitor.js] *)

Ltac probe_cases H :=
  unfold Monitor.probe, Monitor.insertAndMove, Monitor.viewAndDelete in H;
  cbv zeta in H;
  repeat match type of H with
         | context [if negb ?b then _ else _] => destruct b eqn:?; cbn [negb] in H
         | context [match ?x with _ => _ end] => destruct x eqn:?
         end;
  inversion H; subst; clear H;
  repeat match goal with
         | |- context [Monitor.commentAfterTrack ?p] =>
             generalize (Monitor.commentAfterTrack p); intros ?
         | |- context [Z.eqb ?a ?b] => generalize (Z.eqb a b); intros ?
         end;
  cbn [app].

(** Property X23.  The probe deletes the playlist exactly when it got as far as the verdict
    on the view: the DELETE request is sent after the first four steps
    succeeded, whether the view passed its check or not.  When the probe
    stops at a failed step, nothing is deleted; in particular a playlist
    that was created is left on the server when the comment, the spin or
    the move fails. *)
Theorem probe_deletes_after_view sv log reqs e :
  Monitor.probe sv = (log, reqs, e) ->
  (existsb Monitor.isDelete reqs = true <-> exists verdict, In ("View playlist", verdict) log) /\
  (e = Monitor.Stopped -> existsb Monitor.isDelete reqs = false) /\
  (In ("Create playlist", true) log ->
   In ("Insert comment", false) log \/ In ("Insert spin", false) log \/
   In ("Move track", false) log ->
   e = Monitor.Stopped /\ existsb Monitor.isDelete reqs = false).
Proof.
  intros H. probe_cases H;
    cbn [existsb Monitor.isDelete Monitor.method orb In];
    (split; [split; [intros D; try discriminate D; eauto 12
                    | intros [v I]; intuition congruence]
            | split; [intros E; try discriminate E; reflexivity
                     | intros _ I; intuition congruence]]).
Qed.

Lemma probe_deletes_after_view_witness :
  existsb Monitor.isDelete
    (snd (fst (Monitor.probe
       (Monitor.mkServer
          (fun n _ => Resolved (response (match n with
                                          | 1%nat => 201 | 2%nat => 200 | 3%nat => 200
                                          | 4%nat => 204 | 5%nat => 200 | _ => 204
                                          end)
                                         [("location", "api/v1/playlist/77")]))
          (fun _ => Monitor.JsonDataId (VNumber 5)))))) = true.
Proof.
  destruct (Monitor.probe
       (Monitor.mkServer
          (fun n _ => Resolved (response (match n with
                                          | 1%nat => 201 | 2%nat => 200 | 3%nat => 200
                                          | 4%nat => 204 | 5%nat => 200 | _ => 204
                                          end)
                                         [("location", "api/v1/playlist/77")]))
          (fun _ => Monitor.JsonDataId (VNumber 5)))) as [[log reqs] e] eqn:P.
  destruct (probe_deletes_after_view _ _ _ _ P) as [[_ D] _].
  apply D. vm_compute in P. inversion P. exists false. simpl. auto 10.
Defined.

Ltac split_log E before :=
  destruct before as [|? before]; cbn [app] in E;
  [ inversion E; subst; auto 6
  | first [ discriminate E | injection E as _ E; split_log E before ] ].

(** Property X24.  The log of the probe is a beginning of the six steps in their order,
    with one line for each request of a script that was not cut short by
    an exception.  A step that failed is the last line of the log, and the script
    stopped there, unless it is the view or the deletion; and a script that
    stopped did so at a failed step. *)
Theorem probe_log_follows_the_steps sv log reqs e :
  Monitor.probe sv = (log, reqs, e) ->
  map fst log = firstn (List.length log) Monitor.labels /\
  (List.length log <= List.length reqs <= List.length log + 1)%nat /\
  (e <> Monitor.Crashed -> List.length reqs = List.length log) /\
  (forall before label after,
     log = before ++ (label, false) :: after ->
     label = "View playlist" \/ label = "Delete playlist" \/
     (after = [] /\ e = Monitor.Stopped)) /\
  (e = Monitor.Stopped ->
   exists before label, log = before ++ [(label, false)]).
Proof.
  intros H. probe_cases H;
    (split; [reflexivity|]; split; [cbn [List.length]; lia|];
     split; [intros NC; first [reflexivity | exfalso; apply NC; reflexivity]|];
     split;
     [ intros before label after E; split_log E before
     | intros E; try discriminate E;
       first [ exists [], "Create playlist"; reflexivity
             | eexists [_], _; reflexivity
             | eexists [_; _], _; reflexivity
             | eexists [_; _; _], _; reflexivity ] ]).
Qed.

Lemma probe_log_follows_the_steps_witness :
  map fst (fst (fst (Monitor.probe
     (Monitor.mkServer (fun _ _ => Resolved (response 201 [("location", "api/v1/playlist/77")]))
                       (fun _ => Monitor.JsonDataId VNull)))))
  = ["Create playlist"; "Insert comment"].
Proof.
  destruct (Monitor.probe
     (Monitor.mkServer (fun _ _ => Resolved (response 201 [("location", "api/v1/playlist/77")]))
                       (fun _ => Monitor.JsonDataId VNull))) as [[log reqs] e] eqn:P.
  destruct (probe_log_follows_the_steps _ _ _ _ P) as [L _].
  cbn [fst]. rewrite L. vm_compute in P. inversion P. reflexivity.
Defined.

Lemma hasSlash_lastSegment s : Monitor.hasSlash (Monitor.lastSegment s) = false.
Proof.
  induction s as [|ch s IH]; [reflexivity|].
  cbn [Monitor.lastSegment].
  destruct (Monitor.hasSlash s) eqn:S; [exact IH|].
  destruct (Ascii.eqb ch "/") eqn:C; [exact S|].
  cbn [Monitor.hasSlash]. rewrite C, S. reflexivity.
Qed.

(** Property X25.  The playlist id that the probe takes from the [Location] header is what
    follows its last slash: it has no slash in it, the header is [prefix ++
    pid] with a prefix that is empty or ends with a slash, and a header
    without a slash is the id as a whole. *)
Theorem lastSegment_is_after_last_slash s :
  Monitor.hasSlash (Monitor.lastSegment s) = false /\
  (exists prefix, s = (prefix ++ Monitor.lastSegment s)%string /\
     (prefix = "" \/ exists p, prefix = (p ++ "/")%string)) /\
  (Monitor.hasSlash s = false -> Monitor.lastSegment s = s).
Proof.
  split; [apply hasSlash_lastSegment|]. split.
  - induction s as [|ch s (prefix & E & P)].
    + exists "". split; [reflexivity | left; reflexivity].
    + cbn [Monitor.lastSegment].
      destruct (Monitor.hasSlash s) eqn:S.
      * exists (String ch prefix). split; [simpl; now f_equal|].
        right. destruct P as [-> | [p ->]].
        -- exfalso. pose proof (hasSlash_lastSegment s) as L.
           change ("" ++ Monitor.lastSegment s)%string with (Monitor.lastSegment s) in E.
           rewrite <- E in L. congruence.
        -- exists (String ch p). reflexivity.
      * destruct (Ascii.eqb_spec ch "/") as [-> | N].
        -- exists "/". split; [reflexivity|]. right. exists "". reflexivity.
        -- exists "". split; [reflexivity | left; reflexivity].
  - induction s as [|ch s IH]; [reflexivity|].
    cbn [Monitor.hasSlash Monitor.lastSegment]. intros H.
    apply orb_false_iff in H. destruct H as [C S]. rewrite S, C. reflexivity.
Qed.

Example lastSegment_of_a_location :
  Monitor.lastSegment "api/v1/playlist/77" = "77" /\
  Monitor.lastSegment "api/v1/playlist/77/" = "" /\
  Monitor.lastSegment "77" = "77".
Proof. repeat split. Qed.
